(** * nwc-otm: the per-client ledger and the reconciliation of settlements

    A shallow embedding of [src/index.ts]: the in-memory ledger
    ([balances]), the table of pending invoices ([pending]), the registry of
    live client services ([clientServices]), the wallet-method handlers that
    [createWalletService] installs, the [payment_received] notification
    handler and [prunePending], and, around them, the merging of the
    command line with the configuration files and the loading of the two
    data files at startup. The relay pool, the connection to the upstream
    wallet and the [get_info] handler, which only forwards to the upstream
    wallet, touch none of this state and are left out.

    Conventions.
    - A JavaScript [number] holding an amount or a timestamp is a [Z]
      (amounts are counts of millisatoshi, timestamps are integers).
    - A field that the program tests for truthiness is an [option]: [None]
      is [undefined], and the falsy defined values ([""] for a string, [0]
      for a number) are told apart by [truthy_string] and [truthy_number].
    - Objects of the [pending] array are compared by reference
      ([p !== existing]), so every element carries the identity of its
      object, a [loc].
    - An [async] handler is a value of [Async]: either it settles before its
      first [await], or it is suspended on one call of the upstream wallet
      with the rest of its body as a continuation over the state it will
      find when it is resumed. *)

From stdpp Require Import base decidable option numbers strings list gmap.

Local Open Scope Z_scope.

(** ** JavaScript values *)

(** [s] used as a condition: a string is truthy when it is defined and not
    empty. *)
Definition truthy_string (o : option string) : bool :=
  match o with
  | Some s => negb (bool_decide (s = ""%string))
  | None => false
  end.

(** [n] used as a condition: a number is truthy when it is defined and not
    zero. *)
Definition truthy_number (o : option Z) : bool :=
  match o with
  | Some n => negb (n =? 0)
  | None => false
  end.

(** [n || 0] *)
Definition or0 (o : option Z) : Z :=
  if truthy_number o then default 0 o else 0.

(** [a === b] on optional strings. *)
Definition strict_eq (a b : option string) : bool := bool_decide (a = b).

(** ** Data model *)

(** The fields of [Transaction] (declared by applesauce-wallet-connect) that
    the program reads. *)
Record Transaction := {
  type : string;
  state : option string;
  invoice : option string;
  description_hash : option string;
  payment_hash : option string;
  amount : Z;
  expires_at : option Z;
}.

(** An element of [pending]: [Transaction & { owner: string }]. *)
Record PendingInvoice := {
  transaction : Transaction;
  owner : string;
}.

(** Identity of an object of the [pending] array. *)
Abbreviation loc := nat.

Record State := {
  balances : gmap string Z;
  pending : list (loc * PendingInvoice);
  clientServices : gset string;
  (** next unused object identity *)
  next_loc : loc;
  (** contents of balances.json and pending.json *)
  balances_file : gmap string Z;
  pending_file : list PendingInvoice;
  (** [client.notify("payment_received", n)] calls made so far, latest first *)
  notified : list (string * Transaction);
}.

Definition with_balances (b : gmap string Z) (st : State) : State :=
  {| balances := b; pending := pending st;
     clientServices := clientServices st; next_loc := next_loc st;
     balances_file := balances_file st; pending_file := pending_file st;
     notified := notified st |}.

Definition with_pending (l : list (loc * PendingInvoice)) (st : State) : State :=
  {| balances := balances st; pending := l;
     clientServices := clientServices st; next_loc := next_loc st;
     balances_file := balances_file st; pending_file := pending_file st;
     notified := notified st |}.

Definition with_clientServices (s : gset string) (st : State) : State :=
  {| balances := balances st; pending := pending st;
     clientServices := s; next_loc := next_loc st;
     balances_file := balances_file st; pending_file := pending_file st;
     notified := notified st |}.

(** ** Persistence *)

(** [saveBalances]: the whole ledger is written to balances.json. A failed
    write is caught and logged by the program; the model takes the write to
    succeed. *)
Definition saveBalances (st : State) : State :=
  {| balances := balances st; pending := pending st;
     clientServices := clientServices st; next_loc := next_loc st;
     balances_file := balances st; pending_file := pending_file st;
     notified := notified st |}.

(** [savePending] *)
Definition savePending (st : State) : State :=
  {| balances := balances st; pending := pending st;
     clientServices := clientServices st; next_loc := next_loc st;
     balances_file := balances_file st; pending_file := (pending st).*2;
     notified := notified st |}.

(** ** Pruning *)

(** The predicate of the filter in [prunePending]:
    [p.expires_at && p.expires_at > now]. *)
Definition unexpired (now : Z) (p : loc * PendingInvoice) : bool :=
  truthy_number (expires_at (transaction p.2))
  && (default 0 (expires_at (transaction p.2)) >? now).

(** [prunePending], with the value of [Date.now()]. *)
Definition prunePending (now : Z) (st : State) : State :=
  savePending (with_pending (List.filter (unexpired now) (pending st)) st).

(** ** Matching a settlement against the pending invoices *)

(** The predicate of [pending.find] in the notification handler and in
    [lookup_invoice], with [s] the notification or the looked-up
    transaction. *)
Definition matches (s : Transaction) (p : loc * PendingInvoice) : bool :=
  let t := transaction p.2 in
  (truthy_string (payment_hash t) && truthy_string (payment_hash s)
   && strict_eq (payment_hash t) (payment_hash s))
  || (truthy_string (invoice t) && truthy_string (invoice s)
      && strict_eq (invoice t) (invoice s))
  || (truthy_string (description_hash t) && truthy_string (description_hash s)
      && strict_eq (description_hash t) (description_hash s)).

(** [p !== existing] *)
Definition not_same (existing p : loc * PendingInvoice) : bool :=
  negb (p.1 =? existing.1)%nat.

(** ** Crediting a settled invoice *)

(** [balances[existing.owner] = (balances[existing.owner] || 0) + existing.amount;
    saveBalances()] *)
Definition credit (existing : loc * PendingInvoice) (st : State) : State :=
  let o := owner existing.2 in
  saveBalances
    (with_balances
       (<[o := or0 (balances st !! o) + amount (transaction existing.2)]> (balances st))
       st).

(** [const client = clientServices.get(existing.owner);
    if (client) client.notify("payment_received", notification)] *)
Definition forward (notification : Transaction) (existing : loc * PendingInvoice)
    (st : State) : State :=
  if bool_decide (owner existing.2 ∈ clientServices st) then
    {| balances := balances st; pending := pending st;
       clientServices := clientServices st; next_loc := next_loc st;
       balances_file := balances_file st; pending_file := pending_file st;
       notified := (owner existing.2, notification) :: notified st |}
  else st.

(** [pending = pending.filter((p) => p !== existing); savePending()] *)
Definition remove (existing : loc * PendingInvoice) (st : State) : State :=
  savePending (with_pending (List.filter (not_same existing) (pending st)) st).

(** The handler of the upstream [payment_received] notification. *)
Definition payment_received (notification : Transaction) (st : State) : State :=
  if bool_decide (type notification ≠ "incoming"%string) then st
  else
    match List.find (matches notification) (pending st) with
    | Some existing => remove existing (forward notification existing (credit existing st))
    | None => st
    end.

(** ** The upstream wallet *)

Record PayInvoiceParams := {
  pi_invoice : string;
  pi_amount : option Z;
}.

Record MakeInvoiceParams := {
  mi_amount : Z;
  mi_description : option string;
  mi_description_hash : option string;
  mi_expiry : option Z;
}.

Record LookupInvoiceParams := {
  li_payment_hash : option string;
  li_invoice : option string;
}.

Record PayInvoiceResult := {
  preimage : string;
  fees_paid : option Z;
}.

(** The calls that the handlers make on [upstream]. *)
Inductive UpstreamCall :=
  | payInvoice (inv : string) (amt : option Z)
  | makeInvoice (amt : Z) (params : MakeInvoiceParams)
  | lookupInvoice (hash inv : option string).

(** How a promise settles, and how a handler ends. *)
Inductive Completion (R : Type) :=
  | Returned (r : R)
  | Thrown (message : string).
Arguments Returned {R} r.
Arguments Thrown {R} message.

(** An [async] handler that awaits the upstream wallet at most once: it has
    settled, or it is suspended on [call], to be resumed with the outcome of
    the call in the state of that later moment. *)
Inductive Async (T R : Type) :=
  | Done (c : Completion R)
  | Await (call : UpstreamCall) (k : Completion T → State → State * Completion R).
Arguments Done {T R} c.
Arguments Await {T R} call k.

(** ** Client services *)

(** The part of [createWalletService] that runs before its first [await]:
    the balance of a new client is initialised and the service registered. *)
Definition createWalletService (clientPubkey : string) (st : State) : State :=
  let st1 :=
    if bool_decide (is_Some (balances st !! clientPubkey)) then st
    else saveBalances (with_balances (<[clientPubkey := 0]> (balances st)) st) in
  with_clientServices ({[clientPubkey]} ∪ clientServices st1) st1.

(** The [tap] of the relay subscription, on an event of [pubkey]. *)
Definition on_request_event (pubkey : string) (st : State) : State :=
  if bool_decide (pubkey ∈ clientServices st) then st
  else createWalletService pubkey st.

(** [get_balance]: no [await], the handler returns at once. *)
Definition get_balance (clientPubkey : string) (st : State) : Completion Z :=
  Returned (or0 (balances st !! clientPubkey)).

(** [pay_invoice] *)
Definition pay_invoice (clientPubkey : string) (params : PayInvoiceParams)
    (st : State) : Async PayInvoiceResult PayInvoiceResult :=
  let clientBalance := or0 (balances st !! clientPubkey) in
  let amount := or0 (pi_amount params) in
  if amount >? clientBalance then Done (Thrown "Insufficient balance")
  else
    Await (payInvoice (pi_invoice params) (pi_amount params))
      (λ reply st',
         match reply with
         | Thrown e => (st', Thrown e)
         | Returned result =>
             (saveBalances
                (with_balances
                   (<[clientPubkey := clientBalance - amount]> (balances st')) st'),
              Returned result)
         end).

(** [pending.push({ ...transaction, owner: clientPubkey })]: a new object at
    the end of the array. *)
Definition push (t : Transaction) (clientPubkey : string) (st : State) : State :=
  {| balances := balances st;
     pending := pending st ++ [(next_loc st, {| transaction := t; owner := clientPubkey |})];
     clientServices := clientServices st; next_loc := S (next_loc st);
     balances_file := balances_file st; pending_file := pending_file st;
     notified := notified st |}.

(** [make_invoice] *)
Definition make_invoice (clientPubkey : string) (params : MakeInvoiceParams)
    (st : State) : Async Transaction Transaction :=
  Await (makeInvoice (mi_amount params) params)
    (λ reply st',
       match reply with
       | Thrown e => (st', Thrown e)
       | Returned t => (savePending (push t clientPubkey st'), Returned t)
       end).

(** The body of [lookup_invoice] after the upstream call returned [check]. *)
Definition reconcile_lookup (check : Transaction) (st : State) : State :=
  if bool_decide (state check = Some "settled"%string) then
    match List.find (matches check) (pending st) with
    | Some existing =>
        if bool_decide (state (transaction existing.2) = Some "pending"%string)
        then remove existing (credit existing st)
        else st
    | None => st
    end
  else st.

(** [lookup_invoice] *)
Definition lookup_invoice (clientPubkey : string) (params : LookupInvoiceParams)
    (st : State) : Async Transaction Transaction :=
  Await (lookupInvoice (li_payment_hash params) (li_invoice params))
    (λ reply st',
       match reply with
       | Thrown e => (st', Thrown e)
       | Returned check => (reconcile_lookup check st', Returned check)
       end).

(** ** Running a handler alone *)

(** A handler started in [st] and run to its end with no other handler in
    between: the calls made on the upstream wallet (answered by [upstream]),
    the final state and the outcome. *)
Definition exec {T R} (h : State → Async T R) (upstream : UpstreamCall → Completion T)
    (st : State) : list UpstreamCall * State * Completion R :=
  match h st with
  | Done c => ([], st, c)
  | Await call k => let '(st', c) := k (upstream call) st in ([call], st', c)
  end.

(** ** The service as a whole: handlers interleaved at their awaits *)

(** A handler suspended on its upstream call. *)
Inductive InFlight :=
  | AwaitingPay (k : Completion PayInvoiceResult → State → State * Completion PayInvoiceResult)
  | AwaitingTx (k : Completion Transaction → State → State * Completion Transaction).

Record System := {
  store : State;
  inflight : list InFlight;
}.

Inductive Request :=
  | GetBalance
  | PayInvoice (params : PayInvoiceParams)
  | MakeInvoice (params : MakeInvoiceParams)
  | LookupInvoice (params : LookupInvoiceParams).

Inductive Response :=
  | Balance (b : Z)
  | Paid (r : PayInvoiceResult)
  | Invoice (t : Transaction).

(** What happens, one synchronous run of JavaScript each. *)
Inductive Event :=
  (** an event of [pubkey] arrives on the relay subscription *)
  | RequestEvent (pubkey : string)
  (** the service of [clientPubkey] calls the handler of a request *)
  | Call (clientPubkey : string) (req : Request)
  (** the upstream call of the [i]-th suspended handler settles *)
  | PayReply (i : nat) (reply : Completion PayInvoiceResult)
  | TxReply (i : nat) (reply : Completion Transaction)
  (** the upstream wallet notifies [payment_received] *)
  | PaymentReceived (notification : Transaction)
  (** [prunePending()] runs at time [now] *)
  | Prune (now : Z).

(** What the outside sees of one event. *)
Inductive Observation :=
  | Called (call : UpstreamCall)
  | Answered (c : Completion Response).

Definition answer {R} (inj : R → Response) (c : Completion R) : Observation :=
  match c with
  | Returned r => Answered (Returned (inj r))
  | Thrown e => Answered (Thrown e)
  end.

(** A handler runs up to its first [await]. *)
Definition start {T R} (wrap : (Completion T → State → State * Completion R) → InFlight)
    (inj : R → Response) (h : Async T R) (sys : System) : System * list Observation :=
  match h with
  | Done c => (sys, [answer inj c])
  | Await call k =>
      ({| store := store sys; inflight := inflight sys ++ [wrap k] |}, [Called call])
  end.

Definition dispatch (clientPubkey : string) (req : Request) (sys : System)
    : System * list Observation :=
  match req with
  | GetBalance => (sys, [answer Balance (get_balance clientPubkey (store sys))])
  | PayInvoice params =>
      start AwaitingPay Paid (pay_invoice clientPubkey params (store sys)) sys
  | MakeInvoice params =>
      start AwaitingTx Invoice (make_invoice clientPubkey params (store sys)) sys
  | LookupInvoice params =>
      start AwaitingTx Invoice (lookup_invoice clientPubkey params (store sys)) sys
  end.

Definition on_store (f : State → State) (sys : System) : System :=
  {| store := f (store sys); inflight := inflight sys |}.

(** A suspended handler runs from its [await] to its end. *)
Definition resume {R} (inj : R → Response) (i : nat) (r : State * Completion R)
    (sys : System) : System * list Observation :=
  ({| store := r.1; inflight := delete i (inflight sys) |}, [answer inj r.2]).

Definition step (sys : System) (ev : Event) : System * list Observation :=
  match ev with
  | RequestEvent pubkey => (on_store (on_request_event pubkey) sys, [])
  | Call clientPubkey req =>
      if bool_decide (clientPubkey ∈ clientServices (store sys))
      then dispatch clientPubkey req sys
      else (sys, [])
  | PayReply i reply =>
      match inflight sys !! i with
      | Some (AwaitingPay k) => resume Paid i (k reply (store sys)) sys
      | _ => (sys, [])
      end
  | TxReply i reply =>
      match inflight sys !! i with
      | Some (AwaitingTx k) => resume Invoice i (k reply (store sys)) sys
      | _ => (sys, [])
      end
  | PaymentReceived notification => (on_store (payment_received notification) sys, [])
  | Prune now => (on_store (prunePending now) sys, [])
  end.

Fixpoint run (sys : System) (evs : list Event) : System * list Observation :=
  match evs with
  | [] => (sys, [])
  | ev :: evs' =>
      let '(sys1, obs1) := step sys ev in
      let '(sys2, obs2) := run sys1 evs' in
      (sys2, obs1 ++ obs2)
  end.

(** ** Configuration *)

(** How the process goes on at startup: it runs on with a value, or it has
    called [process.exit(code)]. *)
Inductive Startup (A : Type) :=
  | Running (a : A)
  | Exit (code : Z).
Arguments Running {A} a.
Arguments Exit {A} code.

(** [relay?: string | string[]] *)
Inductive RelaySetting :=
  | relay_string (r : string)
  | relay_array (rs : list string).

(** [interface Config] *)
Record Config := {
  relay : option RelaySetting;
  connect_uri : option string;
  data : option string;
}.

(** The [values] of [parseArgs]: [relay] is [multiple], an array when the
    option was given at least once. *)
Record Values := {
  values_relay : option (list string);
  values_connect_uri : option string;
  values_data : option string;
  values_config : option string;
}.

(** The configuration after lines 23-72. [config_json] is what config.json
    holds: [None] when there is no such file, [Some None] when reading or
    parsing it throws; [readConfig] does the same for the file named by
    [--config]. *)
Definition load_config (config_json : option (option Config))
    (readConfig : string → option Config) (values : Values) : Startup Config :=
  match config_json with
  | Some None => Exit 1
  | _ =>
      let config :=
        match config_json with
        | Some (Some c) => c
        | _ => {| relay := None; connect_uri := None; data := None |}
        end in
      if truthy_string (values_config values) then
        match readConfig (default ""%string (values_config values)) with
        | Some c => Running c
        | None => Exit 1
        end
      else Running config
  end.

(** [relayFromConfig] *)
Definition relayFromConfig (config : Config) : option (list string) :=
  match relay config with
  | Some (relay_array rs) => Some rs
  | Some (relay_string r) => if truthy_string (Some r) then Some [r] else None
  | None => None
  end.

(** [a || b] on optional strings. *)
Definition or_string (a b : option string) : option string :=
  if truthy_string a then a else b.

(** [values.relay || relayFromConfig]: an array is truthy, also an empty
    one. *)
Definition finalRelays (config : Config) (values : Values) : option (list string) :=
  match values_relay values with
  | Some rs => Some rs
  | None => relayFromConfig config
  end.

Definition finalConnectUri (config : Config) (values : Values) : option string :=
  or_string (values_connect_uri values) (connect_uri config).

Definition finalDataPath (config : Config) (values : Values) : option string :=
  or_string (values_data values) (data config).

(** [relays], [connectUri] and [dataPath] *)
Record Settings := {
  relays : list string;
  connectUri : string;
  dataPath : string;
}.

(** Lines 74-107: the command line is merged with the configuration, and
    the process exits with the usage message when a setting is missing. *)
Definition merge_settings (config : Config) (values : Values) : Startup Settings :=
  if negb (bool_decide (is_Some (finalRelays config values)))
     || negb (truthy_string (finalConnectUri config values))
     || negb (truthy_string (finalDataPath config values))
  then Exit 1
  else
    Running {| relays := default [] (finalRelays config values);
               connectUri := default ""%string (finalConnectUri config values);
               dataPath := default ""%string (finalDataPath config values) |}.

Definition configure (config_json : option (option Config))
    (readConfig : string → option Config) (values : Values) : Startup Settings :=
  match load_config config_json readConfig values with
  | Running config => merge_settings config values
  | Exit code => Exit code
  end.

(** ** Startup *)

(** Lines 118-157, for balances.json and for pending.json alike: the file is
    parsed when it exists, and the process exits when that throws; a file
    that does not exist is created with the [empty] value. Either way the
    file then holds the value that the process runs with. *)
Definition load_or_create {A} (file : option (option A)) (empty : A) : Startup A :=
  match file with
  | Some (Some a) => Running a
  | Some None => Exit 1
  | None => Running empty
  end.

(** The state once both files are loaded: [JSON.parse] makes the elements of
    [pending] new objects, and no service exists yet. *)
Definition loaded (b : gmap string Z) (p : list PendingInvoice) : State :=
  {| balances := b; pending := zip (seq 0 (length p)) p;
     clientServices := ∅; next_loc := length p;
     balances_file := b; pending_file := p; notified := [] |}.

(** Lines 376-385: a service is created for each of [keys]. *)
Definition recreate_services (keys : list string) (st : State) : State :=
  foldl (λ st clientPubkey, createWalletService clientPubkey st) st keys.

(** The state in which the service starts to run: the files are loaded, the
    services of the clients of the ledger are created, in the order [keys] of
    [Object.keys(balances)], and the pending table is pruned at time
    [now]. *)
Definition startup (balances_json : option (option (gmap string Z)))
    (pending_json : option (option (list PendingInvoice)))
    (keys : gmap string Z → list string) (now : Z) : Startup State :=
  match load_or_create balances_json ∅ with
  | Exit code => Exit code
  | Running b =>
      match load_or_create pending_json [] with
      | Exit code => Exit code
      | Running p => Running (prunePending now (recreate_services (keys b) (loaded b p)))
      end
  end.

(** ** Requests handled in turn *)


(** * The vocabulary of the statements *)

(** Both sides carry the same key, and it is not the empty string. *)
Definition same_key (a b : option string) : Prop :=
  ∃ h, h ≠ ""%string ∧ a = Some h ∧ b = Some h.

(** The predicate in the words of the specification: a key is shared when it
    is present on both sides and equal. *)
Definition present_and_equal (a b : option string) : Prop :=
  is_Some a ∧ is_Some b ∧ a = b.

Definition matches_as_specified (s : Transaction) (p : PendingInvoice) : Prop :=
  present_and_equal (payment_hash (transaction p)) (payment_hash s)
  ∨ present_and_equal (invoice (transaction p)) (invoice s)
  ∨ present_and_equal (description_hash (transaction p)) (description_hash s).

(** The balance of a client, as every handler reads it: [balances[c] || 0]. *)
Definition balance_of (st : State) (c : string) : Z := or0 (balances st !! c).

(** The state that the continuation of [pay_invoice] leaves when the
    upstream call succeeded. *)
Definition deducted (c : string) (v : Z) (st : State) : State :=
  saveBalances (with_balances (<[c := v]> (balances st)) st).

(** The owner of [e] has been credited with the amount of [e], no other
    balance has changed, and [e], and only [e], has left the pending
    table. *)
Definition credited_and_removed (e : loc * PendingInvoice) (st st1 : State) : Prop :=
  balance_of st1 (owner e.2) = balance_of st (owner e.2) + amount (transaction e.2)
  ∧ (∀ c, c ≠ owner e.2 → balances st1 !! c = balances st !! c)
  ∧ (∀ p, p ∈ pending st1 ↔ p ∈ pending st ∧ p ≠ e)
  ∧ S (length (pending st1)) = length (pending st).

(** The reconciler in the words of the specification: the first pending
    invoice that matches [s] is found, and it is credited and removed only
    if its state is [pending]. *)
Definition reconcile_as_specified (s : Transaction) (st : State) : State :=
  match List.find (matches s) (pending st) with
  | Some e =>
      if bool_decide (state (transaction e.2) = Some "pending"%string)
      then remove e (credit e st)
      else st
  | None => st
  end.

(** Neither path does anything on settlement [s] in state [st]. *)
Definition ignored (s : Transaction) (st : State) : Prop :=
  payment_received s st = st ∧ reconcile_lookup s st = st.

(** An upstream reply that is acceptable for [Q]. *)
Definition reply_ok (Q : Transaction → Prop) (reply : Completion Transaction) : Prop :=
  match reply with
  | Returned t => Q t
  | Thrown _ => True
  end.

(** A suspended handler that keeps [P] when it is resumed. *)
Definition inflight_ok (P : State → Prop) (Q : Transaction → Prop) (h : InFlight) : Prop :=
  match h with
  | AwaitingPay k => ∀ reply st, P st → P (k reply st).1
  | AwaitingTx k => ∀ reply st, reply_ok Q reply → P st → P (k reply st).1
  end.

Definition event_ok (Q : Transaction → Prop) (ev : Event) : Prop :=
  match ev with
  | TxReply _ reply => reply_ok Q reply
  | _ => True
  end.

Definition invariant (P : State → Prop) (Q : Transaction → Prop) (sys : System) : Prop :=
  P (store sys) ∧ Forall (inflight_ok P Q) (inflight sys).

Definition no_negative_balance (st : State) : Prop :=
  ∀ c v, balances st !! c = Some v → 0 ≤ v.

Definition no_negative_amount (st : State) : Prop :=
  Forall (λ p : loc * PendingInvoice, 0 ≤ amount (transaction p.2)) (pending st).

Definition solvent (st : State) : Prop :=
  no_negative_balance st ∧ no_negative_amount st.

(** The amounts that the upstream wallet reports during [evs] are not
    negative. *)
Definition amounts_not_negative (evs : list Event) : Prop :=
  Forall (event_ok (λ t, 0 ≤ amount t)) evs.

Definition distinct_objects (st : State) : Prop :=
  NoDup (pending st).*1
  ∧ Forall (λ p : loc * PendingInvoice, (p.1 < next_loc st)%nat) (pending st).

(** The disk holds what memory holds. *)
Definition saved (st : State) : Prop :=
  balances_file st = balances st ∧ pending_file st = (pending st).*2.

(** The clients of [D] have a balance entry, the clients of [S] have a
    service, and every client with a service has a balance entry. *)
Definition clients_known (D S : gset string) (st : State) : Prop :=
  D ⊆ dom (balances st) ∧ S ⊆ clientServices st
  ∧ clientServices st ⊆ dom (balances st).


(** A transaction without any key that can match: each of its three keys is
    absent or empty. *)
Definition keyless (t : Transaction) : Prop :=
  truthy_string (payment_hash t) = false
  ∧ truthy_string (invoice t) = false
  ∧ truthy_string (description_hash t) = false.

(** * Example states and requests *)

(** A settlement and an invoice that both report an empty description hash,
    as wallets do for an invoice that has none, and different payment
    hashes. *)
Definition settlement_without_description_hash : Transaction :=
  {| type := "incoming"; state := Some "settled"%string; invoice := None;
     description_hash := Some ""%string; payment_hash := Some "h1"%string;
     amount := 50; expires_at := None |}.

Definition invoice_without_description_hash : PendingInvoice :=
  {| transaction :=
       {| type := "incoming"; state := Some "pending"%string; invoice := None;
          description_hash := Some ""%string; payment_hash := Some "h2"%string;
          amount := 70; expires_at := None |};
     owner := "B" |}.

(** Two clients hold an invoice each, for the same description hash (as two
    invoices of one payment page are); the wallet reports the settlement of
    the first one. *)
Definition invoice_of_A : PendingInvoice :=
  {| transaction :=
       {| type := "incoming"; state := Some "pending"%string; invoice := None;
          description_hash := Some "d"%string; payment_hash := Some "h1"%string;
          amount := 50; expires_at := None |};
     owner := "A" |}.

Definition invoice_of_B : PendingInvoice :=
  {| transaction :=
       {| type := "incoming"; state := Some "pending"%string; invoice := None;
          description_hash := Some "d"%string; payment_hash := Some "h2"%string;
          amount := 70; expires_at := None |};
     owner := "B" |}.

Definition settlement_of_h1 : Transaction :=
  {| type := "incoming"; state := Some "settled"%string; invoice := None;
     description_hash := Some "d"%string; payment_hash := Some "h1"%string;
     amount := 50; expires_at := None |}.

Definition two_invoices_one_description : State :=
  {| balances := {["A" := 0; "B" := 0]}%string;
     pending := [(0%nat, invoice_of_A); (1%nat, invoice_of_B)];
     clientServices := ∅; next_loc := 2%nat;
     balances_file := {["A" := 0; "B" := 0]}%string;
     pending_file := [invoice_of_A; invoice_of_B];
     notified := [] |}.

(** A client with no money, an invoice of a negative amount in its name, and
    the settlement of that invoice. *)
Definition invoice_of_negative_amount : PendingInvoice :=
  {| transaction :=
       {| type := "incoming"; state := Some "pending"%string; invoice := None;
          description_hash := None; payment_hash := Some "h1"%string;
          amount := -5; expires_at := None |};
     owner := "A" |}.

Definition owing_invoice : State :=
  {| balances := {["A" := 0]}%string;
     pending := [(0%nat, invoice_of_negative_amount)];
     clientServices := {["A"%string]}; next_loc := 1%nat;
     balances_file := {["A" := 0]}%string;
     pending_file := [invoice_of_negative_amount];
     notified := [] |}.

Definition client_with_100 : State :=
  {| balances := {["A" := 100]}%string; pending := [];
     clientServices := {["A"%string]}; next_loc := 0%nat;
     balances_file := {["A" := 100]}%string; pending_file := [];
     notified := [] |}.

Definition pay_60 : PayInvoiceParams :=
  {| pi_invoice := "lnbc600n1"; pi_amount := Some 60 |}.

Definition payment_made : PayInvoiceResult :=
  {| preimage := "00"; fees_paid := None |}.

Definition pay_150 : PayInvoiceParams :=
  {| pi_invoice := "lnbc1500n1"; pi_amount := Some 150 |}.

Definition pay_unspecified : PayInvoiceParams :=
  {| pi_invoice := "lnbc2500u1"; pi_amount := None |}.

Definition new_client : State :=
  {| balances := {["A" := 0]}%string; pending := [];
     clientServices := {["A"%string]}; next_loc := 0%nat;
     balances_file := {["A" := 0]}%string; pending_file := [];
     notified := [] |}.

(** The upstream wallet that pays everything. *)
Definition always_pays (call : UpstreamCall) : Completion PayInvoiceResult :=
  Returned payment_made.

(** The upstream wallet that cannot pay. *)
Definition never_pays (call : UpstreamCall) : Completion PayInvoiceResult :=
  Thrown "PAYMENT_FAILED".

Definition one_invoice : State :=
  {| balances := {["A" := 100]}%string;
     pending := [(0%nat, invoice_of_A)];
     clientServices := {["A"%string]}; next_loc := 1%nat;
     balances_file := {["A" := 100]}%string;
     pending_file := [invoice_of_A];
     notified := [] |}.

(** An invoice that the wallet created without telling its state. *)
Definition invoice_without_state : PendingInvoice :=
  {| transaction :=
       {| type := "incoming"; state := None; invoice := None;
          description_hash := None; payment_hash := Some "h1"%string;
          amount := 50; expires_at := None |};
     owner := "A" |}.

Definition one_invoice_without_state : State :=
  {| balances := {["A" := 100]}%string;
     pending := [(0%nat, invoice_without_state)];
     clientServices := {["A"%string]}; next_loc := 1%nat;
     balances_file := {["A" := 100]}%string;
     pending_file := [invoice_without_state];
     notified := [] |}.

(** An invoice that expired, its expiry in seconds as the wallet gives it,
    and one without expiry. *)
Definition invoice_expired : PendingInvoice :=
  {| transaction :=
       {| type := "incoming"; state := Some "pending"%string; invoice := None;
          description_hash := None; payment_hash := Some "h3"%string;
          amount := 20; expires_at := Some 1700000000 |};
     owner := "A" |}.

Definition two_stale_invoices : State :=
  {| balances := {["A" := 100]}%string;
     pending := [(0%nat, invoice_expired); (1%nat, invoice_without_state)];
     clientServices := {["A"%string]}; next_loc := 2%nat;
     balances_file := {["A" := 100]}%string;
     pending_file := [invoice_expired; invoice_without_state];
     notified := [] |}.

Definition invoice_for_70 : MakeInvoiceParams :=
  {| mi_amount := 70; mi_description := None; mi_description_hash := None;
     mi_expiry := None |}.

(** A run in which a suspended payment, a settlement, a new invoice and a
    pruning are interleaved. *)
Definition busy_day : list Event :=
  [RequestEvent "A"; Call "A" (PayInvoice pay_60);
   PaymentReceived settlement_of_h1;
   Call "A" (MakeInvoice invoice_for_70);
   PayReply 0 (Returned payment_made);
   TxReply 0 (Returned (transaction invoice_of_B));
   Prune 1700000000000].

(** [Object.keys(balances)], in the order of the map. *)
Definition ledger_keys (b : gmap string Z) : list string := elements (dom b).

Definition ledger_of_A_and_B : gmap string Z := {["A" := 100; "B" := 0]}%string.

(** An invoice that expires far in the future. *)
Definition invoice_lasting : PendingInvoice :=
  {| transaction :=
       {| type := "incoming"; state := Some "pending"%string; invoice := None;
          description_hash := None; payment_hash := Some "h4"%string;
          amount := 30; expires_at := Some 2000000000000 |};
     owner := "B" |}.

(** A is owed an invoice under payment hash h1, B one under h2. *)
Definition invoices_of_A_and_B : State :=
  {| balances := ledger_of_A_and_B;
     pending := [(0%nat, invoice_of_A); (1%nat, invoice_without_description_hash)];
     clientServices := {["A"; "B"]}%string; next_loc := 2%nat;
     balances_file := ledger_of_A_and_B;
     pending_file := [invoice_of_A; invoice_without_description_hash];
     notified := [] |}.

Definition settlement_of_h2 : Transaction :=
  {| type := "incoming"; state := Some "settled"%string; invoice := None;
     description_hash := None; payment_hash := Some "h2"%string;
     amount := 70; expires_at := None |}.

Definition settlement_of_h3 : Transaction :=
  {| type := "incoming"; state := Some "settled"%string; invoice := None;
     description_hash := None; payment_hash := Some "h3"%string;
     amount := 20; expires_at := None |}.

Definition config_of_file : Config :=
  {| relay := Some (relay_string "wss://relay.of.file");
     connect_uri := Some "nostr+walletconnect://file"%string;
     data := Some "./data"%string |}.

Definition config_without_data : Config :=
  {| relay := Some (relay_array ["wss://one"; "wss://two"]%string);
     connect_uri := Some "nostr+walletconnect://custom"%string;
     data := None |}.

Definition values_of_command_line : Values :=
  {| values_relay := Some ["wss://relay.of.cli"%string];
     values_connect_uri := Some "nostr+walletconnect://cli"%string;
     values_data := None; values_config := None |}.

Definition values_with_config : Values :=
  {| values_relay := None; values_connect_uri := None;
     values_data := None; values_config := Some "my-config.json"%string |}.

Definition pay_back_25 : PayInvoiceParams :=
  {| pi_invoice := "lnbc1"; pi_amount := Some (-25) |}.

(** A settlement and an invoice that carry no key, the description hash
    being empty. *)
Definition settlement_without_keys : Transaction :=
  {| type := "incoming"; state := Some "settled"%string; invoice := None;
     description_hash := Some ""%string; payment_hash := None;
     amount := 10; expires_at := None |}.

Definition invoice_without_keys : PendingInvoice :=
  {| transaction :=
       {| type := "incoming"; state := Some "pending"%string; invoice := None;
          description_hash := Some ""%string; payment_hash := None;
          amount := 10; expires_at := None |};
     owner := "A" |}.

Definition invoices_with_and_without_keys : State :=
  {| balances := {["A" := 100]}%string;
     pending := [(0%nat, invoice_expired); (1%nat, invoice_without_keys)];
     clientServices := {["A"%string]}; next_loc := 2%nat;
     balances_file := {["A" := 100]}%string;
     pending_file := [invoice_expired; invoice_without_keys];
     notified := [] |}.

(** * Properties *)

(** ** JavaScript values *)

Lemma truthy_string_spec (o : option string) :
  truthy_string o = true ↔ ∃ s, o = Some s ∧ s ≠ ""%string.
Proof.
  destruct o as [s|]; simpl.
  - rewrite negb_true_iff, bool_decide_eq_false. split.
    + intros Hs. by exists s.
    + intros (s' & [= <-] & Hs). done.
  - split; [done | by intros (s & ? & _)].
Qed.

Lemma truthy_number_spec (o : option Z) :
  truthy_number o = true ↔ ∃ n, o = Some n ∧ n ≠ 0.
Proof.
  destruct o as [n|]; simpl.
  - rewrite negb_true_iff, Z.eqb_neq. split.
    + intros Hn. by exists n.
    + intros (n' & [= <-] & Hn). done.
  - split; [done | by intros (n & ? & _)].
Qed.

Lemma or0_default (o : option Z) : or0 o = default 0 o.
Proof.
  unfold or0. destruct o as [n|]; simpl; [|done].
  destruct (Z.eqb_spec n 0); simpl; congruence.
Qed.

Lemma or0_Some (n : Z) : or0 (Some n) = n.
Proof. by rewrite or0_default. Qed.

Lemma or0_None : or0 None = 0.
Proof. done. Qed.

(** ** The matching predicate *)

Lemma same_key_spec (a b : option string) :
  truthy_string a && truthy_string b && strict_eq a b = true ↔ same_key a b.
Proof.
  unfold strict_eq, same_key.
  rewrite !andb_true_iff, !truthy_string_spec, bool_decide_eq_true. split.
  - intros [[(h & -> & Hh) _] <-]. by exists h.
  - intros (h & Hh & -> & ->). repeat split; by try exists h.
Qed.

(** C8, as stated, fails: the description hashes are present on both sides
    and equal, yet the program finds no match, because an empty key is
    falsy. *)
Lemma matches_present_empty_key_counterexample :
  matches_as_specified settlement_without_description_hash
    invoice_without_description_hash
  ∧ matches settlement_without_description_hash
      (0%nat, invoice_without_description_hash) = false.
Proof.
  split; [|reflexivity].
  right. right. repeat split; simpl; eauto.
Qed.

(** C8, amended: the settlement [s] matches the pending invoice [p] exactly
    when they share a non-empty payment hash, or a non-empty invoice string,
    or a non-empty description hash; one shared key is enough. *)
Theorem matches_iff_shared_key (s : Transaction) (p : loc * PendingInvoice) :
  matches s p = true ↔
    same_key (payment_hash (transaction p.2)) (payment_hash s)
    ∨ same_key (invoice (transaction p.2)) (invoice s)
    ∨ same_key (description_hash (transaction p.2)) (description_hash s).
Proof.
  unfold matches. cbv zeta.
  rewrite !orb_true_iff, !same_key_spec. tauto.
Qed.

(** ** Pruning *)

Lemma unexpired_spec (now : Z) (p : loc * PendingInvoice) :
  unexpired now p = true ↔
    ∃ e, expires_at (transaction p.2) = Some e ∧ e ≠ 0 ∧ now < e.
Proof.
  unfold unexpired. rewrite andb_true_iff, truthy_number_spec, Z.gtb_lt. split.
  - intros [(e & He & Hne) Hlt]. rewrite He in Hlt. simpl in Hlt. eauto.
  - intros (e & He & Hne & Hlt). rewrite He. simpl. eauto.
Qed.

Lemma pending_prunePending (now : Z) (st : State) :
  pending (prunePending now st) = List.filter (unexpired now) (pending st).
Proof. done. Qed.

(** C9: pruning keeps exactly the pending invoices whose expiry timestamp is
    present, not zero and greater than the current time, in their order; an
    invoice without expiry timestamp, or with a zero one, is removed. *)
Theorem prunePending_retains (now : Z) (st : State) :
  (∀ p, p ∈ pending (prunePending now st) ↔
          p ∈ pending st
          ∧ ∃ e, expires_at (transaction p.2) = Some e ∧ e ≠ 0 ∧ now < e)
  ∧ sublist (pending (prunePending now st)) (pending st)
  ∧ (∀ p, expires_at (transaction p.2) = None
          ∨ expires_at (transaction p.2) = Some 0 →
          p ∉ pending (prunePending now st)).
Proof.
  rewrite pending_prunePending.
  assert (Hmem : ∀ p, p ∈ List.filter (unexpired now) (pending st) ↔
            p ∈ pending st
            ∧ ∃ e, expires_at (transaction p.2) = Some e ∧ e ≠ 0 ∧ now < e).
  { intros p. rewrite !list_elem_of_In, filter_In, unexpired_spec. done. }
  split; [exact Hmem|]. split.
  - clear Hmem. induction (pending st) as [|q l IH]; simpl; [constructor|].
    destruct (unexpired now q); [apply sublist_skip | apply sublist_cons]; exact IH.
  - intros p Hp [_ (e & He & Hne & _)]%Hmem.
    destruct Hp as [Hp|Hp]; rewrite Hp in He; congruence.
Qed.

(** C6: pruning removes every pending invoice whose expiry timestamp has
    passed, whatever its state, and writes no balance: the ledger in memory
    and the one on disk are what they were. *)
Theorem prunePending_expired (now : Z) (st : State) :
  (∀ p e, p ∈ pending st →
          expires_at (transaction p.2) = Some e → e ≤ now →
          p ∉ pending (prunePending now st))
  ∧ balances (prunePending now st) = balances st
  ∧ balances_file (prunePending now st) = balances_file st.
Proof.
  split; [|done].
  intros p e _ He Hle. rewrite pending_prunePending, list_elem_of_In, filter_In.
  intros [_ (e' & He' & _ & Hlt)%unexpired_spec]. rewrite He in He'.
  injection He' as <-. lia.
Qed.

(** ** Paying an invoice *)

Lemma get_balance_balance_of (c : string) (st : State) :
  get_balance c st = Returned (balance_of st c).
Proof. done. Qed.

Lemma balance_of_with_balances (c c' : string) (v : Z) (st : State) :
  balance_of (saveBalances (with_balances (<[c := v]> (balances st)) st)) c'
  = if decide (c = c') then v else balance_of st c'.
Proof.
  unfold balance_of. simpl. rewrite lookup_insert.
  case_decide; [apply or0_Some | done].
Qed.

Lemma pay_invoice_rejected (c : string) (params : PayInvoiceParams) (st : State) :
  balance_of st c < or0 (pi_amount params) →
  pay_invoice c params st = Done (Thrown "Insufficient balance").
Proof.
  intros Hlt. unfold pay_invoice. fold (balance_of st c).
  destruct (Z.gtb_spec (or0 (pi_amount params)) (balance_of st c)); [done | lia].
Qed.

Lemma pay_invoice_forwarded (c : string) (params : PayInvoiceParams) (st : State) :
  or0 (pi_amount params) ≤ balance_of st c →
  pay_invoice c params st =
    Await (payInvoice (pi_invoice params) (pi_amount params))
      (λ reply st',
         match reply with
         | Thrown e => (st', Thrown e)
         | Returned result =>
             (deducted c (balance_of st c - or0 (pi_amount params)) st',
              Returned result)
         end).
Proof.
  intros Hle. unfold pay_invoice. fold (balance_of st c).
  destruct (Z.gtb_spec (or0 (pi_amount params)) (balance_of st c)); [lia | done].
Qed.

Lemma exec_pay_invoice_rejected (c : string) (params : PayInvoiceParams)
    (upstream : UpstreamCall → Completion PayInvoiceResult) (st : State) :
  balance_of st c < or0 (pi_amount params) →
  exec (pay_invoice c params) upstream st = ([], st, Thrown "Insufficient balance").
Proof. intros Hlt. unfold exec. by rewrite pay_invoice_rejected. Qed.

Lemma exec_pay_invoice_forwarded (c : string) (params : PayInvoiceParams)
    (upstream : UpstreamCall → Completion PayInvoiceResult) (st : State) :
  or0 (pi_amount params) ≤ balance_of st c →
  exec (pay_invoice c params) upstream st
  = ([payInvoice (pi_invoice params) (pi_amount params)],
     match upstream (payInvoice (pi_invoice params) (pi_amount params)) with
     | Returned _ => deducted c (balance_of st c - or0 (pi_amount params)) st
     | Thrown _ => st
     end,
     upstream (payInvoice (pi_invoice params) (pi_amount params))).
Proof.
  intros Hle. unfold exec. rewrite pay_invoice_forwarded by done.
  by destruct (upstream _).
Qed.

Lemma balances_deducted_ne (c c' : string) (v : Z) (st : State) :
  c' ≠ c → balances (deducted c v st) !! c' = balances st !! c'.
Proof. intros Hc. simpl. by rewrite lookup_insert_ne. Qed.

Lemma balance_of_deducted (c : string) (v : Z) (st : State) :
  balance_of (deducted c v st) c = v.
Proof. unfold deducted. rewrite balance_of_with_balances. by rewrite decide_True. Qed.

(** C1: a [pay_invoice] request of amount [A] that finds the client's balance
    smaller than [A] is rejected with the insufficient-balance error: the
    handler ends before any call of the upstream wallet and the state is
    unchanged. Otherwise [payInvoice] is called on the upstream wallet, once,
    and the handler waits for it: when the call fails, the handler rethrows
    and the state it finds is left as it is; when the call succeeds, the
    client's balance is set to the balance that was checked less [A], and no
    other balance is written. For a request handled with no other handler in
    between, that is: the balance is reduced by exactly [A] when the upstream
    call succeeded, and only then (for [A] other than zero). *)
Theorem pay_invoice_checked (c : string) (params : PayInvoiceParams)
    (upstream : UpstreamCall → Completion PayInvoiceResult) (st : State) :
  let A := or0 (pi_amount params) in
  let call := payInvoice (pi_invoice params) (pi_amount params) in
  (balance_of st c < A →
     pay_invoice c params st = Done (Thrown "Insufficient balance")
     ∧ exec (pay_invoice c params) upstream st
       = ([], st, Thrown "Insufficient balance"))
  ∧ (A ≤ balance_of st c →
     (∃ k, pay_invoice c params st = Await call k
        ∧ (∀ e st', k (Thrown e) st' = (st', Thrown e))
        ∧ (∀ r st', (k (Returned r) st').2 = Returned r
             ∧ balance_of (k (Returned r) st').1 c = balance_of st c - A
             ∧ ∀ c', c' ≠ c →
                 balances (k (Returned r) st').1 !! c' = balances st' !! c'))
     ∧ ∃ st1, exec (pay_invoice c params) upstream st = ([call], st1, upstream call)
         ∧ (∀ c', c' ≠ c → balances st1 !! c' = balances st !! c')
         ∧ (∀ r, upstream call = Returned r →
                 balance_of st1 c = balance_of st c - A)
         ∧ (∀ e, upstream call = Thrown e → st1 = st)
         ∧ (A ≠ 0 →
            (balance_of st1 c = balance_of st c - A
             ↔ ∃ r, upstream call = Returned r))).
Proof.
  intros A call. split.
  { intros Hlt. split; [by apply pay_invoice_rejected|].
    by apply exec_pay_invoice_rejected. }
  intros Hle. split.
  { eexists. split; [by apply pay_invoice_forwarded|]. split; [done|].
    intros r st'. simpl. split; [done|]. split.
    - apply balance_of_deducted.
    - intros c' Hc'. by apply balances_deducted_ne. }
  rewrite exec_pay_invoice_forwarded by done. fold call A.
  destruct (upstream call) as [r|e] eqn:Hup.
  - eexists. split; [done|]. split; [|split; [|split; [done|]]].
    + intros c' Hc'. by apply balances_deducted_ne.
    + intros _ _. apply balance_of_deducted.
    + intros _. rewrite balance_of_deducted. split; eauto.
  - exists st. split; [done|]. split; [done|]. split; [done|]. split; [done|].
    intros HA. split; [lia | by intros [r ?]].
Qed.

(** C10: whatever the client's balance, provided it is not negative, a
    [pay_invoice] request without amount, or with amount zero, passes the
    check and is forwarded to the upstream wallet with the amount as the
    client gave it; when the upstream call succeeds the client's balance is
    what it was. *)
Theorem pay_invoice_without_amount (c : string) (params : PayInvoiceParams)
    (upstream : UpstreamCall → Completion PayInvoiceResult) (st : State) (r : PayInvoiceResult) :
  0 ≤ balance_of st c →
  pi_amount params = None ∨ pi_amount params = Some 0 →
  upstream (payInvoice (pi_invoice params) (pi_amount params)) = Returned r →
  ∃ st', exec (pay_invoice c params) upstream st
         = ([payInvoice (pi_invoice params) (pi_amount params)], st', Returned r)
    ∧ balance_of st' c = balance_of st c
    ∧ ∀ c', c' ≠ c → balances st' !! c' = balances st !! c'.
Proof.
  intros Hbal Hamount Hup.
  assert (HA : or0 (pi_amount params) = 0) by (by destruct Hamount as [-> | ->]).
  rewrite exec_pay_invoice_forwarded, Hup by lia.
  eexists. split; [done|]. split.
  - rewrite balance_of_deducted. lia.
  - intros c' Hc'. by apply balances_deducted_ne.
Qed.

(** ** Lists and the pending table *)

Lemma Forall_list_filter {A} (P : A → Prop) (f : A → bool) (l : list A) :
  Forall P l → Forall P (List.filter f l).
Proof.
  rewrite !Forall_forall. intros H x Hx%list_elem_of_In%filter_In.
  apply H, list_elem_of_In, Hx.
Qed.

Lemma balances_forward (n : Transaction) (existing : loc * PendingInvoice) (st : State) :
  balances (forward n existing st) = balances st.
Proof. unfold forward. by case_bool_decide. Qed.

Lemma pending_forward (n : Transaction) (existing : loc * PendingInvoice) (st : State) :
  pending (forward n existing st) = pending st.
Proof. unfold forward. by case_bool_decide. Qed.

(** ** The objects of the pending table are distinct *)

Lemma list_filter_sublist {A} (f : A → bool) (l : list A) :
  sublist (List.filter f l) l.
Proof.
  induction l as [|x l IH]; simpl; [constructor|].
  destruct (f x); [apply sublist_skip | apply sublist_cons]; exact IH.
Qed.

Lemma distinct_objects_filter (f : loc * PendingInvoice → bool) (st : State) :
  distinct_objects st →
  distinct_objects (savePending (with_pending (List.filter f (pending st)) st)).
Proof.
  intros [Hnd Hlt]. split; simpl.
  - eapply sublist_NoDup;
      first [exact Hnd | apply fmap_sublist, list_filter_sublist].
  - by apply Forall_list_filter.
Qed.

Lemma distinct_objects_push (t : Transaction) (c : string) (st : State) :
  distinct_objects st → distinct_objects (savePending (push t c st)).
Proof.
  intros [Hnd Hlt]. split; simpl.
  - rewrite fmap_app. apply NoDup_app. split; [done|]. split; [|apply NoDup_singleton].
    intros l Hl ->%list_elem_of_singleton.
    apply list_elem_of_fmap in Hl as (p & Hp1 & Hp).
    rewrite Forall_forall in Hlt. specialize (Hlt p Hp). simpl in Hlt, Hp1. lia.
  - apply Forall_app. split.
    + eapply Forall_impl; [exact Hlt|]. simpl. lia.
    + apply Forall_singleton. simpl. lia.
Qed.

Lemma distinct_objects_ext (st st' : State) :
  pending st' = pending st → next_loc st' = next_loc st →
  distinct_objects st → distinct_objects st'.
Proof. unfold distinct_objects. by intros -> ->. Qed.

Lemma distinct_objects_remove (e : loc * PendingInvoice) (st : State) :
  distinct_objects st → distinct_objects (remove e st).
Proof. apply distinct_objects_filter. Qed.

Lemma distinct_objects_forward (n : Transaction) (e : loc * PendingInvoice) (st : State) :
  distinct_objects st → distinct_objects (forward n e st).
Proof. unfold forward. by case_bool_decide. Qed.

Lemma distinct_objects_payment_received (s : Transaction) (st : State) :
  distinct_objects st → distinct_objects (payment_received s st).
Proof.
  intros Hst. unfold payment_received. case_bool_decide; [done|].
  destruct (List.find (matches s) (pending st)) as [e|]; [|done].
  apply distinct_objects_remove, distinct_objects_forward.
  by apply (distinct_objects_ext st).
Qed.

Lemma distinct_objects_reconcile_lookup (s : Transaction) (st : State) :
  distinct_objects st → distinct_objects (reconcile_lookup s st).
Proof.
  intros Hst. unfold reconcile_lookup. case_bool_decide; [|done].
  destruct (List.find (matches s) (pending st)) as [e|]; [|done].
  case_bool_decide; [|done]. apply distinct_objects_remove.
  by apply (distinct_objects_ext st).
Qed.

(** ** Creating an invoice *)

Lemma make_invoice_awaits (c : string) (params : MakeInvoiceParams) (st : State) :
  make_invoice c params st =
    Await (makeInvoice (mi_amount params) params)
      (λ reply st',
         match reply with
         | Thrown e => (st', Thrown e)
         | Returned t => (savePending (push t c st'), Returned t)
         end).
Proof. done. Qed.

Lemma exec_make_invoice (c : string) (params : MakeInvoiceParams)
    (upstream : UpstreamCall → Completion Transaction) (st : State) :
  exec (make_invoice c params) upstream st
  = ([makeInvoice (mi_amount params) params],
     match upstream (makeInvoice (mi_amount params) params) with
     | Returned t => savePending (push t c st)
     | Thrown _ => st
     end,
     upstream (makeInvoice (mi_amount params) params)).
Proof. unfold exec. rewrite make_invoice_awaits. by destruct (upstream _). Qed.

Lemma next_loc_fresh (st : State) :
  Forall (λ p : loc * PendingInvoice, (p.1 < next_loc st)%nat) (pending st) →
  next_loc st ∉ (pending st).*1.
Proof.
  rewrite Forall_forall. intros Hlt (p & Hp1 & Hp)%list_elem_of_fmap.
  specialize (Hlt p Hp). simpl in Hlt. lia.
Qed.

(** C7: [make_invoice] for client [c] calls [makeInvoice] on the upstream
    wallet, once. When the call succeeds with transaction [t], the pending
    table gets exactly one more element, at its end: a new object, [t] with
    owner [c]; the elements it had are kept and no balance changes. When the
    call fails the state, and so the pending table, is unchanged, and the
    client gets the upstream error. *)
Theorem make_invoice_pending (c : string) (params : MakeInvoiceParams)
    (upstream : UpstreamCall → Completion Transaction) (st : State) :
  distinct_objects st →
  let call := makeInvoice (mi_amount params) params in
  ∃ st', exec (make_invoice c params) upstream st = ([call], st', upstream call)
    ∧ (∀ t, upstream call = Returned t →
         ∃ l, (l ∉ (pending st).*1)
           ∧ pending st' = pending st ++ [(l, {| transaction := t; owner := c |})]
           ∧ length (pending st') = S (length (pending st))
           ∧ balances st' = balances st
           ∧ distinct_objects st')
    ∧ (∀ e, upstream call = Thrown e → st' = st).
Proof.
  intros Hd call. rewrite exec_make_invoice. fold call.
  destruct (upstream call) as [t|e] eqn:Hup.
  - eexists. split; [done|]. split; [|done].
    intros t' [= <-]. exists (next_loc st). split; [apply next_loc_fresh, Hd|].
    split; [done|]. split; [|split; [done|]].
    + simpl. rewrite length_app. simpl. lia.
    + by apply distinct_objects_push.
  - exists st. split; [done|]. split; [done|]. by intros e' _.
Qed.

(** ** Reconciliation *)

Section find_and_remove.
Context {A : Type} (f : A → bool).

Lemma find_Some_elem_of (l : list A) (x : A) :
  List.find f l = Some x → x ∈ l ∧ f x = true.
Proof. intros H%find_some. by rewrite list_elem_of_In. Qed.

Lemma find_None_iff (l : list A) :
  List.find f l = None ↔ ∀ x, x ∈ l → f x = false.
Proof.
  split.
  - intros H x Hx%list_elem_of_In. by eapply find_none.
  - induction l as [|y l IH]; intros H; simpl; [done|].
    rewrite (H y) by left. apply IH. intros x Hx. apply H. by right.
Qed.
End find_and_remove.

Lemma not_same_spec (existing p : loc * PendingInvoice) :
  not_same existing p = true ↔ p.1 ≠ existing.1.
Proof. unfold not_same. by rewrite negb_true_iff, Nat.eqb_neq. Qed.

Lemma filter_not_same_fresh (existing : loc * PendingInvoice)
    (l : list (loc * PendingInvoice)) :
  existing.1 ∉ l.*1 → List.filter (not_same existing) l = l.
Proof.
  induction l as [|q l IH]; simpl; [done|].
  rewrite not_elem_of_cons. intros [Hq Hl].
  destruct (not_same existing q) eqn:Hns.
  - by rewrite IH.
  - apply not_true_iff_false in Hns. rewrite not_same_spec in Hns.
    destruct Hns. congruence.
Qed.

(** One identity, one object. *)
Lemma same_loc_same_object (l : list (loc * PendingInvoice)) (a : loc)
    (x y : PendingInvoice) :
  NoDup l.*1 → (a, x) ∈ l → (a, y) ∈ l → x = y.
Proof.
  induction l as [|[b z] l IH]; csimpl.
  - by intros _ ?%elem_of_nil.
  - rewrite NoDup_cons, !elem_of_cons. intros [Hb Hnd] [Hx|Hx] [Hy|Hy].
    + congruence.
    + injection Hx as -> ->. destruct Hb. apply list_elem_of_fmap. by exists (b, y).
    + injection Hy as -> ->. destruct Hb. apply list_elem_of_fmap. by exists (b, x).
    + by apply IH.
Qed.

(** In an array of distinct objects, the filter [p !== existing] drops the
    object [existing] and nothing else. *)
Lemma filter_not_same_elem_of (existing p : loc * PendingInvoice)
    (l : list (loc * PendingInvoice)) :
  NoDup l.*1 → existing ∈ l →
  p ∈ List.filter (not_same existing) l ↔ p ∈ l ∧ p ≠ existing.
Proof.
  intros Hnd He. rewrite !list_elem_of_In, filter_In, not_same_spec, <- list_elem_of_In.
  split; intros [Hp Hne]; (split; [done|]).
  - congruence.
  - intros Hloc. apply Hne. destruct p as [a x], existing as [b y]. simpl in Hloc.
    subst b. f_equal. by eapply same_loc_same_object.
Qed.

Lemma filter_not_same_length (existing : loc * PendingInvoice)
    (l : list (loc * PendingInvoice)) :
  NoDup l.*1 → existing ∈ l →
  S (length (List.filter (not_same existing) l)) = length l.
Proof.
  induction l as [|q l IH]; simpl.
  - by intros _ ?%elem_of_nil.
  - rewrite NoDup_cons. intros [Hq Hnd] He.
    destruct (not_same existing q) eqn:Hns.
    + simpl. f_equal. apply IH; [done|].
      apply elem_of_cons in He as [->|He]; [|done].
      apply not_same_spec in Hns. done.
    + apply not_true_iff_false in Hns. rewrite not_same_spec in Hns.
      assert (Hloc : q.1 = existing.1) by (destruct (decide (q.1 = existing.1)); tauto).
      rewrite filter_not_same_fresh; [done|]. by rewrite <- Hloc.
Qed.

Lemma balance_of_credit (existing : loc * PendingInvoice) (st : State) :
  balance_of (credit existing st) (owner existing.2)
  = balance_of st (owner existing.2) + amount (transaction existing.2).
Proof.
  unfold credit. cbv zeta. rewrite balance_of_with_balances.
  by rewrite decide_True.
Qed.

Lemma balances_credit_ne (existing : loc * PendingInvoice) (st : State) (c : string) :
  c ≠ owner existing.2 → balances (credit existing st) !! c = balances st !! c.
Proof. intros Hc. simpl. by rewrite lookup_insert_ne. Qed.

(** What the notification handler does once it has found [existing]. *)
Lemma payment_received_found (s : Transaction) (existing : loc * PendingInvoice)
    (st : State) :
  type s = "incoming"%string →
  List.find (matches s) (pending st) = Some existing →
  payment_received s st = remove existing (forward s existing (credit existing st)).
Proof.
  intros Hty Hfind. unfold payment_received.
  rewrite bool_decide_eq_false_2 by (by intros ?). by rewrite Hfind.
Qed.

Lemma payment_received_not_found (s : Transaction) (st : State) :
  List.find (matches s) (pending st) = None → payment_received s st = st.
Proof.
  intros Hfind. unfold payment_received. rewrite Hfind. by case_bool_decide.
Qed.

(** What [lookup_invoice] does once it has found [existing] in state
    [pending]. *)
Lemma reconcile_lookup_found (check : Transaction) (existing : loc * PendingInvoice)
    (st : State) :
  state check = Some "settled"%string →
  List.find (matches check) (pending st) = Some existing →
  state (transaction existing.2) = Some "pending"%string →
  reconcile_lookup check st = remove existing (credit existing st).
Proof.
  intros Hst Hfind Hpending. unfold reconcile_lookup.
  rewrite bool_decide_eq_true_2 by done. rewrite Hfind.
  by rewrite bool_decide_eq_true_2.
Qed.

Lemma reconcile_lookup_not_found (check : Transaction) (st : State) :
  List.find (matches check) (pending st) = None → reconcile_lookup check st = st.
Proof.
  intros Hfind. unfold reconcile_lookup. rewrite Hfind. by case_bool_decide.
Qed.

Lemma reconcile_lookup_not_pending (check : Transaction)
    (existing : loc * PendingInvoice) (st : State) :
  List.find (matches check) (pending st) = Some existing →
  state (transaction existing.2) ≠ Some "pending"%string →
  reconcile_lookup check st = st.
Proof.
  intros Hfind Hstate. unfold reconcile_lookup. rewrite Hfind.
  rewrite (bool_decide_eq_false_2 _ Hstate). by case_bool_decide.
Qed.

Lemma remove_credit_spec (e : loc * PendingInvoice) (st st' : State) :
  NoDup (pending st).*1 → e ∈ pending st →
  pending st' = pending st →
  balance_of st' (owner e.2) = balance_of st (owner e.2) + amount (transaction e.2) →
  (∀ c, c ≠ owner e.2 → balances st' !! c = balances st !! c) →
  credited_and_removed e st (remove e st').
Proof.
  intros Hnd He Hpend Hbal Hothers. unfold credited_and_removed, remove. simpl.
  rewrite Hpend. split; [done|]. split; [done|]. split.
  - intros p. by apply filter_not_same_elem_of.
  - by apply filter_not_same_length.
Qed.

Lemma ignored_after_remove (s s' : Transaction) (e : loc * PendingInvoice)
    (st st' : State) :
  pending st' = pending st →
  (∀ p, p ∈ pending st → matches s p = true → p.1 = e.1) →
  (∀ p, matches s' p = true → matches s p = true) →
  ignored s' (remove e st').
Proof.
  intros Hpend Huniq Hsub.
  assert (Hnone : List.find (matches s') (pending (remove e st')) = None).
  { apply find_None_iff. intros p. simpl. rewrite Hpend, list_elem_of_In, filter_In.
    rewrite <- list_elem_of_In, not_same_spec. intros [Hp Hne].
    apply not_true_iff_false. intros Hm. apply Hne, Huniq; auto. }
  split; [by apply payment_received_not_found | by apply reconcile_lookup_not_found].
Qed.

(** C3, as stated, fails: the settlement matches the invoice of A, which is
    credited and removed; delivered a second time it still finds a match,
    the invoice of B under the shared description hash, and credits B. *)
Lemma settlement_delivered_twice_counterexample :
  let st0 := two_invoices_one_description in
  let st1 := payment_received settlement_of_h1 st0 in
  let st2 := payment_received settlement_of_h1 st1 in
  List.find (matches settlement_of_h1) (pending st0) = Some (0%nat, invoice_of_A)
  ∧ balance_of st1 "A" = 50 ∧ balance_of st1 "B" = 0
  ∧ pending st1 = [(1%nat, invoice_of_B)]
  ∧ balance_of st2 "B" = 70 ∧ pending st2 = []
  ∧ st2 ≠ st1.
Proof.
  repeat split; by vm_compute.
Qed.

(** C3, amended: let [e], in state [pending], be the first pending invoice
    that the settlement [s] matches, and let no other pending invoice match
    [s]. On the notification path (for an [incoming] notification), and on
    the [lookup_invoice] path (for a [settled] result), the owner of [e] is
    credited with exactly the amount of [e], no other balance changes, and
    [e] alone leaves the pending table. After that, [s] delivered again on
    either path, or any settlement that matches no more invoices than [s]
    does, finds no match and leaves the whole state as it is. *)
Theorem settlement_credited_once (s : Transaction) (e : loc * PendingInvoice)
    (st : State) :
  NoDup (pending st).*1 →
  List.find (matches s) (pending st) = Some e →
  state (transaction e.2) = Some "pending"%string →
  (∀ p, p ∈ pending st → matches s p = true → p = e) →
  (type s = "incoming"%string →
     credited_and_removed e st (payment_received s st)
     ∧ ∀ s', (∀ p, matches s' p = true → matches s p = true) →
             ignored s' (payment_received s st))
  ∧ (state s = Some "settled"%string →
     credited_and_removed e st (reconcile_lookup s st)
     ∧ ∀ s', (∀ p, matches s' p = true → matches s p = true) →
             ignored s' (reconcile_lookup s st)).
Proof.
  intros Hnd Hfind Hpending Huniq.
  destruct (find_Some_elem_of _ _ _ Hfind) as [He _].
  assert (Huniq' : ∀ p, p ∈ pending st → matches s p = true → p.1 = e.1).
  { intros p Hp Hm. by rewrite (Huniq p Hp Hm). }
  split.
  - intros Hty. rewrite (payment_received_found s e st Hty Hfind). split.
    + apply remove_credit_spec; try done.
      * by rewrite pending_forward.
      * unfold balance_of. rewrite balances_forward. apply balance_of_credit.
      * intros c Hc. rewrite balances_forward. by apply balances_credit_ne.
    + intros s' Hsub. eapply ignored_after_remove; [|exact Huniq'|exact Hsub].
      by rewrite pending_forward.
  - intros Hst. rewrite (reconcile_lookup_found s e st Hst Hfind Hpending).
    split.
    + apply remove_credit_spec; try done.
      * apply balance_of_credit.
      * intros c Hc. by apply balances_credit_ne.
    + intros s' Hsub. by eapply ignored_after_remove.
Qed.

(** The [lookup_invoice] path is the reconciler of the specification. *)
Lemma reconcile_lookup_as_specified (s : Transaction) (st : State) :
  state s = Some "settled"%string →
  reconcile_lookup s st = reconcile_as_specified s st.
Proof.
  intros Hst. unfold reconcile_lookup, reconcile_as_specified.
  by rewrite bool_decide_eq_true_2.
Qed.

(** So is the notification path, up to the notification that it forwards to
    the owner, as long as the invoice found is in state [pending]. *)
Lemma payment_received_as_specified (s : Transaction) (st : State) :
  type s = "incoming"%string →
  (∀ e, List.find (matches s) (pending st) = Some e →
        state (transaction e.2) = Some "pending"%string) →
  balances (payment_received s st) = balances (reconcile_as_specified s st)
  ∧ pending (payment_received s st) = pending (reconcile_as_specified s st).
Proof.
  intros Hty Hpending. unfold reconcile_as_specified.
  destruct (List.find (matches s) (pending st)) as [e|] eqn:Hfind.
  - rewrite (payment_received_found s e st Hty Hfind).
    rewrite bool_decide_eq_true_2 by auto. simpl.
    by rewrite balances_forward, pending_forward.
  - by rewrite payment_received_not_found.
Qed.

(** C4: the two paths use one matching predicate and both take the first
    match, but only [lookup_invoice] looks at the state of the invoice found.
    When the first pending invoice matching [s] is not in state [pending],
    the notification handler credits its owner and removes it all the same,
    where [lookup_invoice], like the reconciler of the specification, leaves
    the state untouched. *)
Theorem payment_received_ignores_state (s : Transaction) (e : loc * PendingInvoice)
    (st : State) :
  type s = "incoming"%string →
  List.find (matches s) (pending st) = Some e →
  state (transaction e.2) ≠ Some "pending"%string →
  balance_of (payment_received s st) (owner e.2)
    = balance_of st (owner e.2) + amount (transaction e.2)
  ∧ (e ∉ pending (payment_received s st))
  ∧ reconcile_lookup s st = st
  ∧ reconcile_as_specified s st = st.
Proof.
  intros Hty Hfind Hstate. rewrite (payment_received_found s e st Hty Hfind).
  split; [|split; [|split]].
  - unfold balance_of. simpl. rewrite balances_forward. apply balance_of_credit.
  - simpl. rewrite list_elem_of_In, filter_In, not_same_spec. by intros [_ ?].
  - by eapply reconcile_lookup_not_pending.
  - unfold reconcile_as_specified. rewrite Hfind.
    by rewrite (bool_decide_eq_false_2 _ Hstate).
Qed.

(** ** Invariants of the service *)

Section preservation.
Variable P : State → Prop.
Variable Q : Transaction → Prop.
Hypothesis P_createWalletService : ∀ c st, P st → P (createWalletService c st).
Hypothesis P_deducted : ∀ c v st, 0 ≤ v → P st → P (deducted c v st).
Hypothesis P_push : ∀ t c st, Q t → P st → P (savePending (push t c st)).
Hypothesis P_reconcile_lookup : ∀ s st, P st → P (reconcile_lookup s st).
Hypothesis P_payment_received : ∀ s st, P st → P (payment_received s st).
Hypothesis P_prunePending : ∀ now st, P st → P (prunePending now st).

Lemma start_invariant {T R} (wrap : (Completion T → State → State * Completion R) → InFlight)
    (inj : R → Response) (h : Async T R) (sys : System) :
  (∀ call k, h = Await call k → inflight_ok P Q (wrap k)) →
  invariant P Q sys → invariant P Q (start wrap inj h sys).1.
Proof.
  intros Hk [HP Hfl]. destruct h as [c|call k]; simpl; [done|].
  split; [done|]. apply Forall_app. split; [done|].
  apply Forall_singleton. by eapply Hk.
Qed.

Lemma dispatch_invariant (c : string) (req : Request) (sys : System) :
  invariant P Q sys → invariant P Q (dispatch c req sys).1.
Proof.
  intros Hinv. destruct req as [|params|params|params]; unfold dispatch; [done|..];
    apply start_invariant; try done; intros call k Hk.
  - unfold pay_invoice in Hk.
    destruct (Z.gtb_spec (or0 (pi_amount params)) (or0 (balances (store sys) !! c)));
      [done|].
    injection Hk as _ <-. intros [r|e] st HP; simpl; [|done].
    apply P_deducted; [lia | done].
  - injection Hk as _ <-. intros [t|e] st HQ HP; simpl; [|done].
    by apply P_push.
  - injection Hk as _ <-. intros [t|e] st _ HP; simpl; [|done].
    by apply P_reconcile_lookup.
Qed.

Lemma step_invariant (sys : System) (ev : Event) :
  event_ok Q ev → invariant P Q sys → invariant P Q (step sys ev).1.
Proof.
  intros Hev Hinv. destruct ev as [pubkey|c req|i reply|i reply|n|now]; simpl.
  - destruct Hinv as [HP Hfl]. split; [|done]. simpl. unfold on_request_event.
    case_bool_decide; [done | by apply P_createWalletService].
  - case_bool_decide; [by apply dispatch_invariant | done].
  - destruct (inflight sys !! i) as [[k|k]|] eqn:Hi; try done.
    destruct Hinv as [HP Hfl]. split; simpl.
    + by apply (Forall_lookup_1 _ _ _ _ Hfl Hi).
    + by apply Forall_delete.
  - destruct (inflight sys !! i) as [[k|k]|] eqn:Hi; try done.
    destruct Hinv as [HP Hfl]. split; simpl.
    + by apply (Forall_lookup_1 _ _ _ _ Hfl Hi).
    + by apply Forall_delete.
  - destruct Hinv as [HP Hfl]. split; [|done]. by apply P_payment_received.
  - destruct Hinv as [HP Hfl]. split; [|done]. by apply P_prunePending.
Qed.

Lemma run_invariant (evs : list Event) (sys : System) :
  Forall (event_ok Q) evs → invariant P Q sys → invariant P Q (run sys evs).1.
Proof.
  revert sys. induction evs as [|ev evs IH]; intros sys Hevs Hinv; simpl; [done|].
  apply Forall_cons in Hevs as [Hev Hevs].
  pose proof (step_invariant sys ev Hev Hinv) as Hstep.
  destruct (step sys ev) as [sys1 obs1]. specialize (IH sys1 Hevs Hstep).
  by destruct (run sys1 evs) as [sys2 obs2].
Qed.
End preservation.

(** *** No balance is negative *)

Lemma balance_of_nonneg (st : State) (c : string) :
  no_negative_balance st → 0 ≤ balance_of st c.
Proof.
  intros Hst. unfold balance_of. rewrite or0_default.
  destruct (balances st !! c) as [v|] eqn:Hc; simpl; [by eapply Hst | done].
Qed.

Lemma no_negative_balance_insert (c : string) (v : Z) (st st' : State) :
  0 ≤ v → balances st' = <[c := v]> (balances st) →
  no_negative_balance st → no_negative_balance st'.
Proof.
  intros Hv Heq Hst c' v'. rewrite Heq, lookup_insert.
  case_decide; [by intros [= <-] | apply Hst].
Qed.

Lemma solvent_createWalletService (c : string) (st : State) :
  solvent st → solvent (createWalletService c st).
Proof.
  intros [Hb Ha]. unfold createWalletService. case_bool_decide; [done|].
  split; [|done]. by eapply (no_negative_balance_insert c 0 st).
Qed.

Lemma solvent_deducted (c : string) (v : Z) (st : State) :
  0 ≤ v → solvent st → solvent (deducted c v st).
Proof.
  intros Hv [Hb Ha]. split; [|done]. by eapply (no_negative_balance_insert c v st).
Qed.

Lemma solvent_push (t : Transaction) (c : string) (st : State) :
  0 ≤ amount t → solvent st → solvent (savePending (push t c st)).
Proof.
  intros Ht [Hb Ha]. split; [done|]. unfold no_negative_amount. simpl.
  apply Forall_app. split; [done|]. by apply Forall_singleton.
Qed.

Lemma solvent_credit (e : loc * PendingInvoice) (st : State) :
  e ∈ pending st → solvent st → solvent (credit e st).
Proof.
  intros He [Hb Ha]. split; [|done].
  eapply (no_negative_balance_insert (owner e.2) _ st); [|done|done].
  pose proof (balance_of_nonneg st (owner e.2) Hb) as Hbal. unfold balance_of in Hbal.
  unfold no_negative_amount in Ha. rewrite Forall_forall in Ha.
  specialize (Ha e He). simpl in Ha. lia.
Qed.

Lemma solvent_forward (n : Transaction) (e : loc * PendingInvoice) (st : State) :
  solvent st → solvent (forward n e st).
Proof. intros Hst. unfold forward. by case_bool_decide. Qed.

Lemma solvent_remove (e : loc * PendingInvoice) (st : State) :
  solvent st → solvent (remove e st).
Proof.
  intros [Hb Ha]. split; [done|]. unfold no_negative_amount. simpl.
  by apply Forall_list_filter.
Qed.

Lemma solvent_payment_received (s : Transaction) (st : State) :
  solvent st → solvent (payment_received s st).
Proof.
  intros Hst. unfold payment_received. case_bool_decide; [done|].
  destruct (List.find (matches s) (pending st)) as [e|] eqn:Hfind; [|done].
  apply find_Some_elem_of in Hfind as [He _].
  by apply solvent_remove, solvent_forward, solvent_credit.
Qed.

Lemma solvent_reconcile_lookup (s : Transaction) (st : State) :
  solvent st → solvent (reconcile_lookup s st).
Proof.
  intros Hst. unfold reconcile_lookup. case_bool_decide; [|done].
  destruct (List.find (matches s) (pending st)) as [e|] eqn:Hfind; [|done].
  apply find_Some_elem_of in Hfind as [He _]. case_bool_decide; [|done].
  by apply solvent_remove, solvent_credit.
Qed.

Lemma solvent_prunePending (now : Z) (st : State) :
  solvent st → solvent (prunePending now st).
Proof.
  intros [Hb Ha]. split; [done|]. unfold no_negative_amount. simpl.
  by apply Forall_list_filter.
Qed.

(** C5, as stated, fails: no balance is negative before the settlement, and
    crediting adds the amount of the invoice as it is, here a negative one. *)
Lemma negative_amount_counterexample :
  no_negative_balance owing_invoice
  ∧ balances (payment_received settlement_of_h1 owing_invoice) !! "A"%string
    = Some (-5).
Proof.
  split; [|by vm_compute].
  intros c v. unfold owing_invoice. simpl.
  rewrite lookup_singleton_Some. by intros [_ <-].
Qed.

(** C5, amended: from a state in which no balance and no pending invoice
    amount is negative and no handler is suspended, and as long as the
    upstream wallet reports no negative amount, no balance is ever negative,
    whatever requests, upstream replies, notifications and prunings follow,
    in whatever order the handlers are interleaved at their awaits. *)
Theorem balances_never_negative (sys : System) (evs : list Event) :
  no_negative_balance (store sys) →
  no_negative_amount (store sys) →
  inflight sys = [] →
  amounts_not_negative evs →
  no_negative_balance (store (run sys evs).1).
Proof.
  intros Hb Ha Hfl Hevs.
  enough (Hinv : invariant solvent (λ t, 0 ≤ amount t) (run sys evs).1)
    by apply Hinv.
  apply run_invariant; try done.
  - apply solvent_createWalletService.
  - apply solvent_deducted.
  - apply solvent_push.
  - apply solvent_reconcile_lookup.
  - apply solvent_payment_received.
  - apply solvent_prunePending.
  - split; [done|]. rewrite Hfl. constructor.
Qed.

(** *** The objects of the pending table stay distinct *)

(** Every operation of the service keeps the objects of the pending table
    distinct: the hypothesis on object identities under which settlements
    are reconciled holds in every state that the service reaches from one
    where it holds. *)
Lemma run_distinct_objects (sys : System) (evs : list Event) :
  distinct_objects (store sys) → inflight sys = [] →
  distinct_objects (store (run sys evs).1).
Proof.
  intros Hst Hfl.
  enough (Hinv : invariant distinct_objects (λ _, True) (run sys evs).1)
    by apply Hinv.
  apply run_invariant.
  - intros c st Hd. unfold createWalletService. by case_bool_decide.
  - by intros c v st _ Hd.
  - intros t c st _. apply distinct_objects_push.
  - apply distinct_objects_reconcile_lookup.
  - apply distinct_objects_payment_received.
  - intros now st. apply distinct_objects_filter.
  - apply Forall_forall. intros [| | |i [t|e]| |] _; done.
  - split; [done|]. rewrite Hfl. constructor.
Qed.

(** *** Two payments that the balance cannot both cover *)

(** C2, as stated, fails: when the second request is handled while the first
    awaits the upstream wallet, both pass the check against the balance of
    100, both are paid upstream, and both handlers write 100 - 60. *)
Lemma overlapping_pay_invoice_counterexample :
  let sys := {| store := client_with_100; inflight := [] |} in
  let r := run sys [Call "A" (PayInvoice pay_60); Call "A" (PayInvoice pay_60);
                    PayReply 0 (Returned payment_made);
                    PayReply 0 (Returned payment_made)] in
  r.2 = [Called (payInvoice "lnbc600n1" (Some 60));
         Called (payInvoice "lnbc600n1" (Some 60));
         Answered (Returned (Paid payment_made));
         Answered (Returned (Paid payment_made))]
  ∧ balance_of (store r.1) "A" = 40
  ∧ inflight r.1 = [].
Proof. repeat split; by vm_compute. Qed.

(** C2, amended: let the balance of client [c] cover each of two payments
    but not their sum (100 against 60 and 60). When the two [pay_invoice]
    requests are handled one after the other, the second starting once the
    first has been paid upstream and has returned, the first succeeds, the
    second is rejected with the insufficient-balance error without reaching
    the upstream wallet, and the balance ends reduced by the first amount
    (40). *)
Theorem pay_invoice_one_after_the_other (sys : System) (c : string)
    (p1 p2 : PayInvoiceParams) (r1 : PayInvoiceResult) :
  c ∈ clientServices (store sys) →
  inflight sys = [] →
  or0 (pi_amount p1) ≤ balance_of (store sys) c →
  or0 (pi_amount p2) ≤ balance_of (store sys) c →
  balance_of (store sys) c < or0 (pi_amount p1) + or0 (pi_amount p2) →
  let r := run sys [Call c (PayInvoice p1); PayReply 0 (Returned r1);
                    Call c (PayInvoice p2)] in
  r.2 = [Called (payInvoice (pi_invoice p1) (pi_amount p1));
         Answered (Returned (Paid r1));
         Answered (Thrown "Insufficient balance")]
  ∧ balance_of (store r.1) c = balance_of (store sys) c - or0 (pi_amount p1)
  ∧ inflight r.1 = [].
Proof.
  intros Hc Hfl H1 H2 Hsum. destruct sys as [st fl]. simpl in *. subst fl.
  rewrite bool_decide_eq_true_2 by done.
  rewrite (pay_invoice_forwarded c p1 st H1). simpl.
  rewrite bool_decide_eq_true_2 by done.
  set (st1 := deducted c (balance_of st c - or0 (pi_amount p1)) st).
  assert (Hbal : balance_of st1 c = balance_of st c - or0 (pi_amount p1))
    by apply balance_of_deducted.
  rewrite (pay_invoice_rejected c p2 st1) by lia. done.
Qed.

(** * Instances *)

(** The scenario of the specification: with a balance of 100, a payment of
    150 is rejected and the balance stays; a payment of 60 goes upstream and
    leaves 40 when it is made, 100 when it is not. *)
Lemma pay_invoice_checked_witness :
  exec (pay_invoice "A" pay_150) always_pays client_with_100
  = ([], client_with_100, Thrown "Insufficient balance")
  ∧ (∃ st', exec (pay_invoice "A" pay_60) always_pays client_with_100
            = ([payInvoice "lnbc600n1" (Some 60)], st', Returned payment_made)
            ∧ balance_of st' "A" = 40)
  ∧ exec (pay_invoice "A" pay_60) never_pays client_with_100
    = ([payInvoice "lnbc600n1" (Some 60)], client_with_100, Thrown "PAYMENT_FAILED").
Proof.
  split; [|split].
  - apply (pay_invoice_checked "A" pay_150 always_pays client_with_100).
    by vm_compute.
  - destruct (pay_invoice_checked "A" pay_60 always_pays client_with_100)
      as [_ Hfwd].
    destruct Hfwd as (_ & st' & Hexec & _ & Hok & _); [by vm_compute|].
    exists st'. split; [exact Hexec|]. exact (Hok payment_made eq_refl).
  - destruct (pay_invoice_checked "A" pay_60 never_pays client_with_100)
      as [_ Hfwd].
    destruct Hfwd as (_ & st' & Hexec & _ & _ & Hfail & _); [by vm_compute|].
    rewrite Hexec. by rewrite (Hfail "PAYMENT_FAILED"%string eq_refl).
Defined.

(** A client with no money has an invoice paid for which it names no
    amount. *)
Lemma pay_invoice_without_amount_witness :
  0 ≤ balance_of new_client "A"
  ∧ ∃ st', exec (pay_invoice "A" pay_unspecified) always_pays new_client
           = ([payInvoice "lnbc2500u1" None], st', Returned payment_made)
      ∧ balance_of st' "A" = balance_of new_client "A"
      ∧ ∀ c', c' ≠ "A"%string → balances st' !! c' = balances new_client !! c'.
Proof.
  split; [by vm_compute|].
  apply (pay_invoice_without_amount "A" pay_unspecified always_pays new_client
           payment_made); [by vm_compute | by left | done].
Defined.

(** The scenario of the specification, the requests one after the other. *)
Lemma pay_invoice_one_after_the_other_witness :
  let sys := {| store := client_with_100; inflight := [] |} in
  let r := run sys [Call "A" (PayInvoice pay_60); PayReply 0 (Returned payment_made);
                    Call "A" (PayInvoice pay_60)] in
  r.2 = [Called (payInvoice "lnbc600n1" (Some 60));
         Answered (Returned (Paid payment_made));
         Answered (Thrown "Insufficient balance")]
  ∧ balance_of (store r.1) "A" = 100 - 60
  ∧ inflight r.1 = [].
Proof.
  apply (pay_invoice_one_after_the_other
           {| store := client_with_100; inflight := [] |} "A" pay_60 pay_60
           payment_made); by vm_compute.
Defined.

(** The settlement of the only pending invoice, on each path: A goes from
    100 to 150, the table is emptied, and the settlement delivered again is
    ignored. *)
Lemma settlement_credited_once_witness :
  credited_and_removed (0%nat, invoice_of_A) one_invoice
    (payment_received settlement_of_h1 one_invoice)
  ∧ ignored settlement_of_h1 (payment_received settlement_of_h1 one_invoice)
  ∧ credited_and_removed (0%nat, invoice_of_A) one_invoice
      (reconcile_lookup settlement_of_h1 one_invoice)
  ∧ ignored settlement_of_h1 (reconcile_lookup settlement_of_h1 one_invoice).
Proof.
  destruct (settlement_credited_once settlement_of_h1 (0%nat, invoice_of_A)
              one_invoice) as [Hpush Hpoll].
  - simpl. apply NoDup_singleton.
  - reflexivity.
  - reflexivity.
  - simpl. by intros p ->%list_elem_of_singleton _.
  - destruct (Hpush eq_refl) as [Hcredit Hagain].
    destruct (Hpoll eq_refl) as [Hcredit' Hagain'].
    split; [exact Hcredit|]. split; [by apply Hagain|].
    split; [exact Hcredit'|]. by apply Hagain'.
Defined.

(** The notification credits A with the 50 of an invoice that is not in
    state [pending]; the same settlement seen by [lookup_invoice] does
    nothing. *)
Lemma payment_received_ignores_state_witness :
  balance_of (payment_received settlement_of_h1 one_invoice_without_state) "A"
  = 100 + 50
  ∧ pending (payment_received settlement_of_h1 one_invoice_without_state) = []
  ∧ reconcile_lookup settlement_of_h1 one_invoice_without_state
    = one_invoice_without_state.
Proof.
  destruct (payment_received_ignores_state settlement_of_h1
              (0%nat, invoice_without_state) one_invoice_without_state)
    as (Hcredit & _ & Hpoll & _); [reflexivity | reflexivity | by simpl |].
  split; [exact Hcredit|]. split; [reflexivity | exact Hpoll].
Defined.

Lemma balances_never_negative_witness :
  no_negative_balance (store {| store := one_invoice; inflight := [] |})
  ∧ no_negative_balance
      (store (run {| store := one_invoice; inflight := [] |} busy_day).1).
Proof.
  assert (Hb : no_negative_balance one_invoice).
  { intros c v. unfold one_invoice. simpl.
    rewrite lookup_singleton_Some. by intros [_ <-]. }
  split; [exact Hb|].
  apply (balances_never_negative {| store := one_invoice; inflight := [] |} busy_day).
  - exact Hb.
  - unfold no_negative_amount. simpl. by repeat constructor.
  - reflexivity.
  - unfold amounts_not_negative, busy_day. by repeat constructor.
Defined.

(** The upstream wallet that creates the invoice of B. *)
Lemma make_invoice_pending_witness :
  distinct_objects one_invoice
  ∧ ∃ st', exec (make_invoice "B" invoice_for_70)
             (λ _, Returned (transaction invoice_of_B)) one_invoice
           = ([makeInvoice 70 invoice_for_70], st', Returned (transaction invoice_of_B))
      ∧ pending st' = [(0%nat, invoice_of_A); (1%nat, invoice_of_B)].
Proof.
  assert (Hd : distinct_objects one_invoice).
  { split; simpl; [apply NoDup_singleton | apply Forall_singleton; simpl; lia]. }
  split; [exact Hd|].
  destruct (make_invoice_pending "B" invoice_for_70
              (λ _, Returned (transaction invoice_of_B)) one_invoice Hd)
    as (st' & Hexec & Hok & _).
  exists st'. split; [exact Hexec|].
  destruct (Hok _ eq_refl) as (l & _ & _ & Hlen & _ & _).
  injection Hexec as <-. reflexivity.
Defined.

(** The restart scenario of the specification: balances A: 100 and B: 0, one
    pending invoice of A for 50 under payment hash h1; its settlement leaves
    A with 150 and the pending table empty. *)
Example restart_scenario :
  let st := {| balances := {["A" := 100; "B" := 0]}%string;
               pending := [(0%nat, invoice_of_A)];
               clientServices := {["A"; "B"]}%string; next_loc := 1%nat;
               balances_file := {["A" := 100; "B" := 0]}%string;
               pending_file := [invoice_of_A]; notified := [] |} in
  let st' := payment_received settlement_of_h1 st in
  balance_of st' "A" = 150 ∧ balance_of st' "B" = 0 ∧ pending st' = []
  ∧ balances_file st' !! "A"%string = Some 150 ∧ pending_file st' = []
  ∧ notified st' = [("A"%string, settlement_of_h1)].
Proof. repeat split; by vm_compute. Qed.

(** An expired invoice leaves the table and the balances stay. *)
Lemma prunePending_expired_witness :
  (0%nat, invoice_expired) ∈ pending two_stale_invoices
  ∧ ((0%nat, invoice_expired) ∉ pending (prunePending 1700000001 two_stale_invoices))
  ∧ balances (prunePending 1700000001 two_stale_invoices)
    = balances two_stale_invoices.
Proof.
  destruct (prunePending_expired 1700000001 two_stale_invoices)
    as (Hgone & Hbalances & _).
  assert (Hin : (0%nat, invoice_expired) ∈ pending two_stale_invoices) by left.
  split; [exact Hin|]. split; [|exact Hbalances].
  apply (Hgone _ 1700000000 Hin); [reflexivity | by vm_compute].
Defined.

(** The invoice without expiry leaves the table as well. *)
Lemma prunePending_retains_witness :
  (1%nat, invoice_without_state) ∉ pending (prunePending 1700000001 two_stale_invoices).
Proof.
  destruct (prunePending_retains 1700000001 two_stale_invoices) as (_ & _ & Hgone).
  apply Hgone. by left.
Defined.

(** * The rest of the program *)

(** ** First contact *)

Lemma createWalletService_known (c : string) (st : State) :
  is_Some (balances st !! c) →
  createWalletService c st = with_clientServices ({[c]} ∪ clientServices st) st.
Proof. intros Hc. unfold createWalletService. by rewrite bool_decide_eq_true_2. Qed.

Lemma balances_createWalletService (c c' : string) (st : State) :
  balances (createWalletService c st) !! c'
  = if bool_decide (c' = c ∧ balances st !! c = None) then Some 0
    else balances st !! c'.
Proof.
  unfold createWalletService. case_bool_decide as Hc; simpl.
  - rewrite bool_decide_eq_false_2; [done|]. intros [_ Hnone].
    rewrite Hnone in Hc. by destruct Hc.
  - apply eq_None_not_Some in Hc. rewrite lookup_insert.
    case_decide as Heq; case_bool_decide as Hb; try done.
    + destruct Hb. by subst.
    + destruct Hb as [-> _]. done.
Qed.

Lemma clientServices_createWalletService (c : string) (st : State) :
  clientServices (createWalletService c st) = {[c]} ∪ clientServices st.
Proof. unfold createWalletService. by case_bool_decide. Qed.

Lemma pending_createWalletService (c : string) (st : State) :
  pending (createWalletService c st) = pending st
  ∧ next_loc (createWalletService c st) = next_loc st
  ∧ pending_file (createWalletService c st) = pending_file st.
Proof. unfold createWalletService. by case_bool_decide. Qed.

(** X1: an event of [pubkey] on the relay subscription never changes what a
    client owns: every entry of the ledger keeps its value, so a client that
    comes back (after a restart the registry of services is empty) keeps its
    balance, and every client reads the balance it read before, a new one
    zero. Afterwards [pubkey] has a service and, when the clients with a
    service had an entry in the ledger, an entry in the ledger; the pending
    table is untouched, and a second event of [pubkey] changes nothing at
    all. *)
Theorem on_request_event_keeps_ledger (pubkey : string) (st : State) :
  (∀ c v, balances st !! c = Some v →
          balances (on_request_event pubkey st) !! c = Some v)
  ∧ (∀ c, balance_of (on_request_event pubkey st) c = balance_of st c)
  ∧ pubkey ∈ clientServices (on_request_event pubkey st)
  ∧ (clientServices st ⊆ dom (balances st) →
     is_Some (balances (on_request_event pubkey st) !! pubkey))
  ∧ pending (on_request_event pubkey st) = pending st
  ∧ on_request_event pubkey (on_request_event pubkey st)
    = on_request_event pubkey st.
Proof.
  assert (Hkeep : ∀ c v, balances st !! c = Some v →
            balances (on_request_event pubkey st) !! c = Some v).
  { intros c v Hc. unfold on_request_event. case_bool_decide; [done|].
    rewrite balances_createWalletService. rewrite bool_decide_eq_false_2; [done|].
    intros [-> Hnone]. congruence. }
  assert (Hin : pubkey ∈ clientServices (on_request_event pubkey st)).
  { unfold on_request_event. case_bool_decide; [done|].
    rewrite clientServices_createWalletService. set_solver. }
  split; [exact Hkeep|]. split; [|split; [exact Hin|split; [|split]]].
  - intros c. unfold balance_of, on_request_event. case_bool_decide; [done|].
    rewrite balances_createWalletService. case_bool_decide as Hb; [|done].
    destruct Hb as [-> ->]. done.
  - intros Hsub.
    destruct (balances st !! pubkey) as [v|] eqn:Hv; [by rewrite (Hkeep _ _ Hv)|].
    unfold on_request_event. case_bool_decide as Hs.
    + apply Hsub, elem_of_dom in Hs. rewrite Hv in Hs. by destruct Hs.
    + rewrite balances_createWalletService. by rewrite bool_decide_eq_true_2.
  - unfold on_request_event. case_bool_decide; [done|].
    apply pending_createWalletService.
  - unfold on_request_event at 1. by rewrite bool_decide_eq_true_2.
Qed.

(** ** Startup *)

Lemma recreate_services_known (keys : list string) (st : State) :
  (∀ k, k ∈ keys → is_Some (balances st !! k)) →
  recreate_services keys st
  = with_clientServices (list_to_set keys ∪ clientServices st) st.
Proof.
  revert st. induction keys as [|k keys IH]; intros st Hkeys.
  - simpl. rewrite (left_id_L ∅ (∪)). by destruct st.
  - change (recreate_services keys (createWalletService k st)
            = with_clientServices (list_to_set (k :: keys) ∪ clientServices st) st).
    rewrite createWalletService_known by (apply Hkeys; left).
    rewrite IH.
    + unfold with_clientServices. simpl. f_equal.
      by rewrite (assoc_L (∪)), (comm_L (∪) _ {[k]}).
    + intros k' Hk'. simpl. apply Hkeys. by right.
Qed.

Lemma distinct_objects_loaded (b : gmap string Z) (p : list PendingInvoice) :
  distinct_objects (loaded b p).
Proof.
  assert (Hfst : (zip (seq 0 (length p)) p).*1 = seq 0 (length p)).
  { apply fst_zip. by rewrite length_seq. }
  split; simpl.
  - rewrite Hfst. apply NoDup_seq.
  - apply Forall_forall. intros q Hq.
    assert (Hin : q.1 ∈ (zip (seq 0 (length p)) p).*1).
    { apply list_elem_of_fmap. by exists q. }
    rewrite Hfst in Hin. apply elem_of_seq in Hin. lia.
Qed.

Lemma snd_zip_seq (p : list PendingInvoice) :
  (zip (seq 0 (length p)) p).*2 = p.
Proof. apply snd_zip. by rewrite length_seq. Qed.

Lemma filter_zip_seq (now : Z) (n : nat) (p : list PendingInvoice) :
  (List.filter (unexpired now) (zip (seq n (length p)) p)).*2
  = List.filter (λ q, unexpired now (0%nat, q)) p.
Proof.
  revert n. induction p as [|q p IH]; intros n; [done|].
  cbn [length seq zip zip_with List.filter].
  change (unexpired now (n, q)) with (unexpired now (0%nat, q)).
  destruct (unexpired now (0%nat, q)); csimpl; by rewrite IH.
Qed.

(** X2: when balances.json and pending.json are loaded (or created, when
    they do not exist), the service starts in a state in which the ledger is
    the one of the file, untouched, also on disk; every client of the ledger,
    and no one else, has a service; the pending table holds the unexpired
    invoices of the file, in their order, as distinct objects, and the file is
    rewritten with them; nothing has been notified. A file that cannot be
    parsed stops the process. *)
Theorem startup_state (balances_json : option (option (gmap string Z)))
    (pending_json : option (option (list PendingInvoice)))
    (keys : gmap string Z → list string) (now : Z) :
  (∀ b, list_to_set (keys b) = dom b) →
  (balances_json = Some None ∨ pending_json = Some None →
   startup balances_json pending_json keys now = Exit 1)
  ∧ (∀ b p, load_or_create balances_json ∅ = Running b →
            load_or_create pending_json [] = Running p →
     ∃ st, startup balances_json pending_json keys now = Running st
       ∧ balances st = b ∧ balances_file st = b
       ∧ clientServices st = dom b
       ∧ (pending st).*2
         = List.filter (λ q, unexpired now (0%nat, q)) p
       ∧ pending_file st = (pending st).*2
       ∧ distinct_objects st
       ∧ notified st = []).
Proof.
  intros Hkeys. split.
  - intros [-> | ->]; unfold startup; simpl; [done|].
    by destruct balances_json as [[b|]|].
  - intros b p Hb Hp. unfold startup. rewrite Hb, Hp. eexists. split; [done|].
    rewrite recreate_services_known.
    2:{ intros k Hk. simpl. apply elem_of_dom. rewrite <- Hkeys.
        by apply elem_of_list_to_set. }
    simpl. split; [done|]. split; [done|]. split; [|split; [|split; [done|split; [|done]]]].
    + by rewrite Hkeys, (right_id_L ∅ (∪)).
    + apply filter_zip_seq.
    + apply (distinct_objects_filter (unexpired now)
               (with_clientServices (list_to_set (keys b) ∪ ∅) (loaded b p))).
      apply (distinct_objects_ext (loaded b p)); [done | done |].
      apply distinct_objects_loaded.
Qed.

(** ** What every event keeps *)

Lemma saved_payment_received (s : Transaction) (st : State) :
  saved st → saved (payment_received s st).
Proof.
  intros Hst. unfold payment_received. case_bool_decide; [done|].
  destruct (List.find (matches s) (pending st)) as [e|]; [|done].
  unfold remove, forward. by case_bool_decide.
Qed.

Lemma saved_reconcile_lookup (s : Transaction) (st : State) :
  saved st → saved (reconcile_lookup s st).
Proof.
  intros Hst. unfold reconcile_lookup. case_bool_decide; [|done].
  destruct (List.find (matches s) (pending st)) as [e|]; [|done].
  by case_bool_decide.
Qed.

Lemma saved_createWalletService (c : string) (st : State) :
  saved st → saved (createWalletService c st).
Proof.
  intros [Hb Hp]. unfold createWalletService. case_bool_decide; [done|].
  by split.
Qed.

(** X3: every handler writes the file of what it has changed before it
    ends or awaits: (writes taken to succeed) once balances.json and
    pending.json hold the ledger and the pending table of memory, they do so
    after every request, upstream reply, notification and pruning, in any
    interleaving. *)
Theorem files_follow_memory (sys : System) (evs : list Event) :
  saved (store sys) → inflight sys = [] →
  saved (store (run sys evs).1).
Proof.
  intros Hst Hfl.
  enough (Hinv : invariant saved (λ _, True) (run sys evs).1) by apply Hinv.
  apply run_invariant.
  - apply saved_createWalletService.
  - by intros c v st _ [Hb Hp].
  - by intros t c st _ [Hb Hp].
  - apply saved_reconcile_lookup.
  - apply saved_payment_received.
  - by intros now st [Hb Hp].
  - apply Forall_forall. intros [| | |i [t|e]| |] _; done.
  - split; [done|]. rewrite Hfl. constructor.
Qed.

Lemma dom_balances_credit (e : loc * PendingInvoice) (st : State) :
  dom (balances st) ⊆ dom (balances (credit e st)).
Proof. simpl. rewrite dom_insert_L. set_solver. Qed.

Lemma clients_known_weaken (D S : gset string) (st st' : State) :
  dom (balances st) ⊆ dom (balances st') →
  clientServices st' = clientServices st →
  clients_known D S st → clients_known D S st'.
Proof.
  intros Hdom Hcs (HD & HS & Hsub). unfold clients_known. rewrite Hcs.
  split; [by etrans|]. split; [done | by etrans].
Qed.

Lemma clients_known_createWalletService (D S : gset string) (c : string) (st : State) :
  clients_known D S st → clients_known D S (createWalletService c st).
Proof.
  intros (HD & HS & Hsub). unfold clients_known.
  rewrite clientServices_createWalletService.
  assert (Hdom : dom (balances (createWalletService c st))
                 = if bool_decide (is_Some (balances st !! c))
                   then dom (balances st) else {[c]} ∪ dom (balances st)).
  { unfold createWalletService. case_bool_decide; simpl; [done|].
    by rewrite dom_insert_L. }
  rewrite Hdom. case_bool_decide as Hc.
  - apply elem_of_dom in Hc. split; [done|]. split; [by apply union_subseteq_r'|].
    apply union_least; [by apply singleton_subseteq_l | done].
  - split; [by apply union_subseteq_r'|]. split; [by apply union_subseteq_r'|].
    by apply union_mono_l.
Qed.

Lemma clients_known_payment_received (D S : gset string) (s : Transaction) (st : State) :
  clients_known D S st → clients_known D S (payment_received s st).
Proof.
  intros Hst. unfold payment_received. case_bool_decide; [done|].
  destruct (List.find (matches s) (pending st)) as [e|]; [|done].
  apply (clients_known_weaken D S st); [|by unfold forward; case_bool_decide|done].
  simpl. rewrite balances_forward. apply dom_balances_credit.
Qed.

Lemma clients_known_reconcile_lookup (D S : gset string) (s : Transaction) (st : State) :
  clients_known D S st → clients_known D S (reconcile_lookup s st).
Proof.
  intros Hst. unfold reconcile_lookup. case_bool_decide; [|done].
  destruct (List.find (matches s) (pending st)) as [e|]; [|done].
  case_bool_decide; [|done].
  apply (clients_known_weaken D S st); [|done|done]. apply dom_balances_credit.
Qed.

(** X4: no client is ever forgotten. Whatever happens, in any interleaving,
    a client that has an entry in the ledger keeps one, a client that has a
    service keeps one, and every client with a service has an entry in the
    ledger (when that was so to begin with). *)
Theorem clients_never_forgotten (sys : System) (evs : list Event) :
  clientServices (store sys) ⊆ dom (balances (store sys)) →
  inflight sys = [] →
  dom (balances (store sys)) ⊆ dom (balances (store (run sys evs).1))
  ∧ clientServices (store sys) ⊆ clientServices (store (run sys evs).1)
  ∧ clientServices (store (run sys evs).1)
    ⊆ dom (balances (store (run sys evs).1)).
Proof.
  intros Hsub Hfl.
  enough (Hinv : invariant
            (clients_known (dom (balances (store sys))) (clientServices (store sys)))
            (λ _, True) (run sys evs).1) by apply Hinv.
  apply run_invariant.
  - apply clients_known_createWalletService.
  - intros c v st _. apply clients_known_weaken; [|done].
    simpl. rewrite dom_insert_L. set_solver.
  - intros t c st _. by apply clients_known_weaken.
  - apply clients_known_reconcile_lookup.
  - apply clients_known_payment_received.
  - intros now st. by apply clients_known_weaken.
  - apply Forall_forall. intros [| | |i [t|e]| |] _; done.
  - split; [done|]. rewrite Hfl. constructor.
Qed.

(** ** Settlements *)

Lemma sublist_pending_remove (e : loc * PendingInvoice) (st st' : State) :
  pending st' = pending st → sublist (pending (remove e st')) (pending st).
Proof. intros Hp. simpl. rewrite Hp. apply list_filter_sublist. Qed.

(** X5: a settlement, on either path, can only credit the owner of a pending
    invoice that it matches: the ledger entry of a client none of whose
    pending invoices matches the settlement is left as it is, in memory. And
    no settlement adds to the pending table: what is left is a sublist of
    what was there. *)
Theorem settlement_frame (s : Transaction) (st : State) (c : string) :
  (∀ p, p ∈ pending st → owner p.2 = c → matches s p = false) →
  balances (payment_received s st) !! c = balances st !! c
  ∧ balances (reconcile_lookup s st) !! c = balances st !! c
  ∧ sublist (pending (payment_received s st)) (pending st)
  ∧ sublist (pending (reconcile_lookup s st)) (pending st).
Proof.
  intros Hc.
  assert (Hne : ∀ e, List.find (matches s) (pending st) = Some e → c ≠ owner e.2).
  { intros e [He Hm]%find_Some_elem_of Heq. symmetry in Heq.
    rewrite (Hc e He Heq) in Hm. done. }
  unfold payment_received, reconcile_lookup.
  destruct (List.find (matches s) (pending st)) as [e|] eqn:Hfind.
  - specialize (Hne e eq_refl).
    split; [|split; [|split]].
    + case_bool_decide; [done|]. simpl. rewrite balances_forward.
      by apply balances_credit_ne.
    + case_bool_decide; [|done]. case_bool_decide; [|done].
      by apply balances_credit_ne.
    + case_bool_decide; [done|]. apply sublist_pending_remove.
      by rewrite pending_forward.
    + case_bool_decide; [|done]. case_bool_decide; [|done].
      by apply sublist_pending_remove.
  - repeat split; by repeat case_bool_decide.
Qed.

Lemma find_app_last {A} (f : A → bool) (l : list A) (x : A) :
  (∀ y, y ∈ l → f y = false) → f x = true →
  List.find f (l ++ [x]) = Some x.
Proof.
  intros Hl Hx. induction l as [|y l IH]; simpl.
  - by rewrite Hx.
  - rewrite (Hl y) by left. apply IH. intros z Hz. apply Hl. by right.
Qed.

Lemma filter_not_same_last (e : loc * PendingInvoice) (l : list (loc * PendingInvoice)) :
  e.1 ∉ l.*1 → List.filter (not_same e) (l ++ [e]) = l.
Proof.
  intros Hfresh. rewrite List.filter_app, filter_not_same_fresh by done.
  simpl. unfold not_same. rewrite Nat.eqb_refl. simpl. apply app_nil_r.
Qed.

(** X6: an invoice made and then settled. After [make_invoice] of client [c]
    got the transaction [t] from the upstream wallet, a settlement [s] that
    matches [t] and none of the invoices that were pending before credits
    [c] with the amount of [t], changes no other balance, and leaves the
    pending table, in memory and on disk, as it was before the invoice was
    made. This holds on the notification path for an [incoming] [s], and on
    the [lookup_invoice] path for a [settled] [s] when [t] is in state
    [pending]. *)
Theorem invoice_made_and_settled (c : string) (params : MakeInvoiceParams)
    (upstream : UpstreamCall → Completion Transaction) (t s : Transaction)
    (st : State) :
  distinct_objects st →
  saved st →
  upstream (makeInvoice (mi_amount params) params) = Returned t →
  matches s (next_loc st, {| transaction := t; owner := c |}) = true →
  (∀ p, p ∈ pending st → matches s p = false) →
  ∃ st1, exec (make_invoice c params) upstream st
         = ([makeInvoice (mi_amount params) params], st1, Returned t)
    ∧ ∀ st2,
        (type s = "incoming"%string ∧ st2 = payment_received s st1)
        ∨ (state s = Some "settled"%string ∧ state t = Some "pending"%string
           ∧ st2 = reconcile_lookup s st1) →
        balance_of st2 c = balance_of st c + amount t
        ∧ (∀ c', c' ≠ c → balances st2 !! c' = balances st !! c')
        ∧ pending st2 = pending st
        ∧ pending_file st2 = pending_file st.
Proof.
  intros [Hnd Hlt] [_ Hsaved] Hup Hm Hold.
  rewrite exec_make_invoice, Hup. eexists. split; [done|].
  set (e := (next_loc st, {| transaction := t; owner := c |})).
  set (st1 := savePending (push t c st)).
  assert (Hfind : List.find (matches s) (pending st1) = Some e)
    by (by apply find_app_last).
  assert (Hfresh : e.1 ∉ (pending st).*1) by (by apply next_loc_fresh).
  assert (Hgoal : ∀ st', pending st' = pending st1 →
            balance_of st' c = balance_of st c + amount t →
            (∀ c', c' ≠ c → balances st' !! c' = balances st !! c') →
            balance_of (remove e st') c = balance_of st c + amount t
            ∧ (∀ c', c' ≠ c → balances (remove e st') !! c' = balances st !! c')
            ∧ pending (remove e st') = pending st
            ∧ pending_file (remove e st') = pending_file st).
  { intros st' Hp Hb Ho. split; [done|]. split; [done|]. simpl. rewrite Hp. simpl.
    rewrite (filter_not_same_last e) by done. by rewrite Hsaved. }
  intros st2 [[Hty ->] | (Hst & Hpend & ->)].
  - rewrite (payment_received_found s e st1 Hty Hfind). apply Hgoal.
    + by rewrite pending_forward.
    + unfold balance_of. rewrite balances_forward. apply (balance_of_credit e st1).
    + intros c' Hc'. rewrite balances_forward. by apply (balances_credit_ne e st1).
  - rewrite (reconcile_lookup_found s e st1 Hst Hfind Hpend). apply Hgoal.
    + done.
    + apply (balance_of_credit e st1).
    + intros c' Hc'. by apply (balances_credit_ne e st1).
Qed.

(** ** Pruning again *)

Lemma unexpired_mono (now now' : Z) (p : loc * PendingInvoice) :
  now ≤ now' → unexpired now' p = true → unexpired now p = true.
Proof.
  rewrite !unexpired_spec. intros Hle (e & He & Hne & Hlt).
  exists e. repeat split; [done | done | lia].
Qed.

Lemma filter_filter_implied {A} (f g : A → bool) (l : list A) :
  (∀ x, g x = true → f x = true) →
  List.filter g (List.filter f l) = List.filter g l.
Proof.
  intros Himp. induction l as [|x l IH]; simpl; [done|].
  destruct (f x) eqn:Hf; simpl.
  - by rewrite IH.
  - destruct (g x) eqn:Hg; [|done]. apply Himp in Hg. congruence.
Qed.

(** X7: pruning at a time and then at a later one is pruning at the later
    one; in particular pruning twice at one time is pruning once. *)
Theorem prunePending_later (now now' : Z) (st : State) :
  now ≤ now' →
  prunePending now' (prunePending now st) = prunePending now' st.
Proof.
  intros Hle. unfold prunePending, savePending, with_pending. simpl.
  rewrite filter_filter_implied; [done|].
  intros p. by apply unexpired_mono.
Qed.

(** X8: a payment that comes after its invoice was pruned credits no one.
    When every pending invoice that a settlement matches has no expiry or
    one that is not after [now], then after pruning at [now] the settlement
    is ignored on both paths: no balance and no table changes. *)
Theorem pruned_invoice_never_credited (now : Z) (s : Transaction) (st : State) :
  (∀ p, p ∈ pending st → matches s p = true → unexpired now p = false) →
  ignored s (prunePending now st).
Proof.
  intros Hexp.
  assert (Hnone : List.find (matches s) (pending (prunePending now st)) = None).
  { apply find_None_iff. intros p. rewrite pending_prunePending.
    rewrite list_elem_of_In, filter_In, <- list_elem_of_In. intros [Hp Hun].
    apply not_true_iff_false. intros Hm. rewrite (Hexp p Hp Hm) in Hun. done. }
  split; [by apply payment_received_not_found | by apply reconcile_lookup_not_found].
Qed.

(** ** Payments in turn *)



(** ** A settlement during a payment *)

(** X10: what a client is credited while one of its payments awaits the
    upstream wallet is lost when the payment succeeds. A [pay_invoice] of
    client [c] passes the check, any notification [s] is handled during the
    upstream call, and the call succeeds: the balance of [c] ends at the
    balance that was checked less the amount paid, whatever [s] credited to
    [c], while the pending table is the one that the settlement left. *)
Theorem credit_during_payment_overwritten (sys : System) (c : string)
    (params : PayInvoiceParams) (s : Transaction) (r : PayInvoiceResult) :
  c ∈ clientServices (store sys) →
  inflight sys = [] →
  or0 (pi_amount params) ≤ balance_of (store sys) c →
  let res := run sys [Call c (PayInvoice params); PaymentReceived s;
                      PayReply 0 (Returned r)] in
  res.2 = [Called (payInvoice (pi_invoice params) (pi_amount params));
           Answered (Returned (Paid r))]
  ∧ balance_of (store res.1) c
    = balance_of (store sys) c - or0 (pi_amount params)
  ∧ pending (store res.1) = pending (payment_received s (store sys))
  ∧ inflight res.1 = [].
Proof.
  intros Hc Hfl Hle. destruct sys as [st fl]. simpl in *. subst fl.
  rewrite bool_decide_eq_true_2 by done.
  rewrite (pay_invoice_forwarded c params st Hle). simpl.
  split; [done|]. split; [|done].
  apply (balance_of_deducted c _ (payment_received s st)).
Qed.

(** ** Configuration *)

Lemma truthy_string_Some (u : string) :
  truthy_string (Some u) = true ↔ u ≠ ""%string.
Proof.
  rewrite truthy_string_spec. split.
  - by intros (s & [= <-] & Hs).
  - intros Hu. by exists u.
Qed.

Lemma or_string_truthy (a b : option string) (u : string) :
  truthy_string (or_string a b) = true →
  default ""%string (or_string a b) ≠ ""%string
  ∧ (a = Some u → u ≠ ""%string → default ""%string (or_string a b) = u).
Proof.
  intros Ht. split.
  - apply truthy_string_spec in Ht as (x & -> & Hx). done.
  - intros -> Hu. unfold or_string. by rewrite (proj2 (truthy_string_Some u) Hu).
Qed.

Lemma merge_settings_Running (config : Config) (values : Values) (s : Settings) :
  merge_settings config values = Running s →
  finalRelays config values = Some (relays s)
  ∧ truthy_string (finalConnectUri config values) = true
  ∧ connectUri s = default ""%string (finalConnectUri config values)
  ∧ truthy_string (finalDataPath config values) = true
  ∧ dataPath s = default ""%string (finalDataPath config values).
Proof.
  unfold merge_settings.
  destruct (finalRelays config values) as [rs|]; simpl; [|done].
  destruct (truthy_string (finalConnectUri config values)); simpl; [|done].
  destruct (truthy_string (finalDataPath config values)); simpl; [|done].
  by intros [= <-].
Qed.

(** X11: when the process gets past its configuration, what was given on
    the command line is what it runs with, whatever the configuration files
    hold: the relays of [--relay] (all of them, and only them), a non-empty
    [--connect-uri], a non-empty [--data]. The connect URI and the data path
    it runs with are never empty. *)
Theorem configure_cli_precedence (config_json : option (option Config))
    (readConfig : string → option Config) (values : Values) (s : Settings) :
  configure config_json readConfig values = Running s →
  (∀ rs, values_relay values = Some rs → relays s = rs)
  ∧ (∀ u, values_connect_uri values = Some u → u ≠ ""%string → connectUri s = u)
  ∧ (∀ d, values_data values = Some d → d ≠ ""%string → dataPath s = d)
  ∧ connectUri s ≠ ""%string
  ∧ dataPath s ≠ ""%string.
Proof.
  unfold configure.
  destruct (load_config config_json readConfig values) as [config|code]; [|done].
  intros (Hrelays & Huri & -> & Hdata & ->)%merge_settings_Running.
  split; [|split; [|split; [|split]]].
  - intros rs Hrs. unfold finalRelays in Hrelays. rewrite Hrs in Hrelays. congruence.
  - intros u. by apply or_string_truthy.
  - intros d. by apply or_string_truthy.
  - by apply (or_string_truthy _ _ ""%string).
  - by apply (or_string_truthy _ _ ""%string).
Qed.

(** X12: the file named by [--config] replaces config.json, it is not merged
    with it: with a non-empty [--config], the settings are those of that
    file and of the command line alone, the same whatever config.json holds
    and whether it exists or not, and the process exits when the named file
    cannot be read. But a config.json that exists and cannot be parsed stops
    the process all the same. *)
Theorem custom_config_replaces (readConfig : string → option Config)
    (values : Values) (path : string) :
  values_config values = Some path → path ≠ ""%string →
  configure (Some None) readConfig values = Exit 1
  ∧ configure None readConfig values
    = match readConfig path with
      | Some c => merge_settings c values
      | None => Exit 1
      end
  ∧ ∀ c0, configure (Some (Some c0)) readConfig values
          = configure None readConfig values.
Proof.
  intros Hpath Hne. unfold configure, load_config. rewrite Hpath. simpl.
  rewrite bool_decide_eq_false_2 by done. simpl.
  split; [done|]. split; [|done]. by destruct (readConfig path).
Qed.

(** ** Edges *)

(** X13: the check of [pay_invoice] has no lower bound. A request with a
    negative amount passes the check whenever the balance is not negative,
    goes to the upstream wallet with that amount, and when the upstream
    call succeeds the balance is raised by the absolute value of the
    amount. *)
Theorem pay_invoice_negative_amount (c : string) (params : PayInvoiceParams)
    (upstream : UpstreamCall → Completion PayInvoiceResult) (st : State)
    (r : PayInvoiceResult) :
  or0 (pi_amount params) < 0 →
  0 ≤ balance_of st c →
  upstream (payInvoice (pi_invoice params) (pi_amount params)) = Returned r →
  ∃ st', exec (pay_invoice c params) upstream st
         = ([payInvoice (pi_invoice params) (pi_amount params)], st', Returned r)
    ∧ balance_of st' c = balance_of st c + Z.abs (or0 (pi_amount params))
    ∧ balance_of st c < balance_of st' c.
Proof.
  intros Hneg Hbal Hup. rewrite exec_pay_invoice_forwarded, Hup by lia.
  eexists. split; [done|]. rewrite balance_of_deducted. lia.
Qed.

Lemma matches_keyless (s : Transaction) (p : loc * PendingInvoice) :
  keyless s ∨ keyless (transaction p.2) → matches s p = false.
Proof.
  unfold matches. cbv zeta. intros [(Hs1 & Hs2 & Hs3) | (Hp1 & Hp2 & Hp3)].
  - rewrite Hs1, Hs2, Hs3. by rewrite !andb_false_r.
  - by rewrite Hp1, Hp2, Hp3.
Qed.

Lemma elem_of_pending_remove (e x : loc * PendingInvoice) (st st' : State) :
  NoDup (pending st).*1 → pending st' = pending st →
  x ∈ pending st → e ∈ pending st → e ≠ x →
  e ∈ pending (remove x st').
Proof.
  intros Hnd Hp Hx He Hne. simpl. rewrite Hp.
  by apply filter_not_same_elem_of.
Qed.

(** X14: keys that are absent or empty never match. A settlement all of
    whose keys (payment hash, invoice, description hash) are absent or empty
    is ignored on both paths in every state; and a pending invoice without
    any non-empty key is found by no settlement, so it is never credited nor
    removed by one: whatever is settled, it stays in the table (until it is
    pruned). *)
Theorem keyless_never_matched (s : Transaction) (st : State) :
  NoDup (pending st).*1 →
  (keyless s → ignored s st)
  ∧ (∀ e, keyless (transaction e.2) → e ∈ pending st →
       List.find (matches s) (pending st) ≠ Some e
       ∧ e ∈ pending (payment_received s st)
       ∧ e ∈ pending (reconcile_lookup s st)).
Proof.
  intros Hnd. split.
  - intros Hs.
    assert (Hnone : List.find (matches s) (pending st) = None).
    { apply find_None_iff. intros p _. apply matches_keyless. by left. }
    split; [by apply payment_received_not_found | by apply reconcile_lookup_not_found].
  - intros e He Hin.
    assert (Hme : matches s e = false) by (apply matches_keyless; by right).
    assert (Hne : ∀ x, List.find (matches s) (pending st) = Some x →
              x ∈ pending st ∧ e ≠ x).
    { intros x [Hx Hm]%find_Some_elem_of. split; [done|]. intros ->. congruence. }
    split; [intros Hfind; by destruct (Hne e Hfind)|].
    unfold payment_received, reconcile_lookup.
    destruct (List.find (matches s) (pending st)) as [x|] eqn:Hfind.
    2:{ split; by repeat case_bool_decide. }
    destruct (Hne x eq_refl) as [Hx Hex].
    split; repeat case_bool_decide; try done.
    + apply (elem_of_pending_remove e x st); try done. by rewrite pending_forward.
    + by apply (elem_of_pending_remove e x st).
Qed.

(** * Instances of the rest *)

(** A client with 100 asks to pay an invoice for an amount of -25, and the
    upstream wallet goes along: the client has 125. *)
Lemma pay_invoice_negative_amount_witness :
  ∃ st', exec (pay_invoice "A" pay_back_25) always_pays client_with_100
         = ([payInvoice "lnbc1" (Some (-25))], st', Returned payment_made)
    ∧ balance_of st' "A" = 100 + 25.
Proof.
  destruct (pay_invoice_negative_amount "A" pay_back_25 always_pays
              client_with_100 payment_made) as (st' & Hexec & Hbal & _);
    [by vm_compute | by vm_compute | reflexivity |].
  exists st'. split; [exact Hexec | exact Hbal].
Defined.

(** A settlement without keys is ignored, and the settlement of another
    invoice leaves the invoice without keys in the table. *)
Lemma keyless_never_matched_witness :
  ignored settlement_without_keys invoices_with_and_without_keys
  ∧ (1%nat, invoice_without_keys)
    ∈ pending (payment_received settlement_of_h3 invoices_with_and_without_keys).
Proof.
  assert (Hnd : NoDup (pending invoices_with_and_without_keys).*1).
  { simpl. apply NoDup_cons. split; [|apply NoDup_singleton].
    by intros ?%list_elem_of_singleton. }
  split.
  - by apply (keyless_never_matched settlement_without_keys
                invoices_with_and_without_keys Hnd).
  - destruct (keyless_never_matched settlement_of_h3
                invoices_with_and_without_keys Hnd) as [_ Hstays].
    apply (Hstays (1%nat, invoice_without_keys)); [done|]. simpl. right. by left.
Defined.

(** Two clients in the ledger, an expired invoice and a lasting one in the
    file: both clients get a service and the lasting invoice is kept. *)
Lemma startup_state_witness :
  ∃ st, startup (Some (Some ledger_of_A_and_B))
          (Some (Some [invoice_expired; invoice_lasting])) ledger_keys 1700000000001
        = Running st
    ∧ balances st = ledger_of_A_and_B
    ∧ clientServices st = dom ledger_of_A_and_B
    ∧ (pending st).*2 = [invoice_lasting].
Proof.
  destruct (startup_state (Some (Some ledger_of_A_and_B))
              (Some (Some [invoice_expired; invoice_lasting])) ledger_keys
              1700000000001) as [_ Hrun].
  - intros b. unfold ledger_keys. apply list_to_set_elements_L.
  - destruct (Hrun _ _ eq_refl eq_refl)
      as (st & Hst & Hb & _ & Hcs & Hp & _).
    exists st. split; [exact Hst|]. split; [exact Hb|]. split; [exact Hcs|].
    exact Hp.
Defined.

Lemma files_follow_memory_witness :
  saved one_invoice
  ∧ saved (store (run {| store := one_invoice; inflight := [] |} busy_day).1).
Proof.
  assert (Hs : saved one_invoice) by (by split).
  split; [exact Hs|].
  by apply (files_follow_memory {| store := one_invoice; inflight := [] |} busy_day).
Defined.

Lemma clients_never_forgotten_witness :
  dom (balances one_invoice)
  ⊆ dom (balances (store (run {| store := one_invoice; inflight := [] |} busy_day).1)).
Proof.
  apply (clients_never_forgotten {| store := one_invoice; inflight := [] |} busy_day);
    [|done].
  simpl. by rewrite dom_singleton_L.
Defined.

(** The settlement of the invoice of A leaves B, whose invoice it does not
    match, with what it had. *)
Lemma settlement_frame_witness :
  balances (payment_received settlement_of_h1 invoices_of_A_and_B) !! "B"%string
  = balances invoices_of_A_and_B !! "B"%string.
Proof.
  apply (settlement_frame settlement_of_h1 invoices_of_A_and_B "B").
  intros p Hp Ho. simpl in Hp.
  apply elem_of_cons in Hp as [-> | Hp]; [discriminate Ho|].
  apply list_elem_of_singleton in Hp as ->. reflexivity.
Defined.

(** B has an invoice of 70 made and paid: B goes from nothing to 70 and the
    invoice of A is pending as before. *)
Lemma invoice_made_and_settled_witness :
  ∃ st1, exec (make_invoice "B" invoice_for_70)
           (λ _, Returned (transaction invoice_of_B)) one_invoice
         = ([makeInvoice 70 invoice_for_70], st1, Returned (transaction invoice_of_B))
    ∧ balance_of (payment_received settlement_of_h2 st1) "B" = 0 + 70
    ∧ pending (payment_received settlement_of_h2 st1) = pending one_invoice.
Proof.
  destruct (invoice_made_and_settled "B" invoice_for_70
              (λ _, Returned (transaction invoice_of_B))
              (transaction invoice_of_B) settlement_of_h2 one_invoice)
    as (st1 & Hexec & Hsettled).
  - split; simpl; [apply NoDup_singleton | apply Forall_singleton; simpl; lia].
  - by split.
  - reflexivity.
  - reflexivity.
  - simpl. by intros p ->%list_elem_of_singleton.
  - exists st1. split; [exact Hexec|].
    destruct (Hsettled (payment_received settlement_of_h2 st1))
      as (Hbal & _ & Hpending & _); [left; by split|].
    split; [exact Hbal | exact Hpending].
Defined.

Lemma prunePending_later_witness :
  prunePending 1700000002 (prunePending 1700000001 two_stale_invoices)
  = prunePending 1700000002 two_stale_invoices.
Proof. apply prunePending_later. by vm_compute. Defined.

(** The payment of the expired invoice arrives after the pruning. *)
Lemma pruned_invoice_never_credited_witness :
  matches settlement_of_h3 (0%nat, invoice_expired) = true
  ∧ ignored settlement_of_h3 (prunePending 1700000001 two_stale_invoices).
Proof.
  split; [reflexivity|].
  apply pruned_invoice_never_credited. intros p Hp _. simpl in Hp.
  apply elem_of_cons in Hp as [-> | Hp]; [reflexivity|].
  apply list_elem_of_singleton in Hp as ->. reflexivity.
Defined.

(** A pays 60 of its 100; the 50 of its invoice, settled during the upstream
    call, are gone with the invoice: the balance ends at 40, not at 90. *)
Lemma credit_during_payment_overwritten_witness :
  let sys := {| store := one_invoice; inflight := [] |} in
  let res := run sys [Call "A" (PayInvoice pay_60); PaymentReceived settlement_of_h1;
                      PayReply 0 (Returned payment_made)] in
  balance_of (payment_received settlement_of_h1 one_invoice) "A" = 150
  ∧ balance_of (store res.1) "A" = 100 - 60
  ∧ pending (store res.1) = [].
Proof.
  split; [reflexivity|].
  assert (Hc : "A"%string ∈ clientServices one_invoice) by (by vm_compute).
  assert (Hle : or0 (pi_amount pay_60) ≤ balance_of one_invoice "A") by (by vm_compute).
  destruct (credit_during_payment_overwritten
              {| store := one_invoice; inflight := [] |} "A" pay_60
              settlement_of_h1 payment_made Hc eq_refl Hle)
    as (_ & Hbal & Hpending & _).
  split; [exact Hbal | exact Hpending].
Defined.

Lemma configure_cli_precedence_witness :
  ∃ s, configure (Some (Some config_of_file)) (λ _, None) values_of_command_line
       = Running s
    ∧ relays s = ["wss://relay.of.cli"%string]
    ∧ connectUri s = "nostr+walletconnect://cli"%string
    ∧ dataPath s ≠ ""%string.
Proof.
  eexists. split; [reflexivity|].
  destruct (configure_cli_precedence (Some (Some config_of_file)) (λ _, None)
              values_of_command_line _ eq_refl) as (Hrelays & Huri & _ & _ & Hdata).
  split; [by apply Hrelays|]. split; [by apply Huri | exact Hdata].
Defined.

(** The data folder of config.json is not inherited by the file of
    [--config]: the process stops with the usage message. *)
Lemma custom_config_replaces_witness :
  merge_settings config_of_file values_with_config
  = Running {| relays := ["wss://relay.of.file"%string];
               connectUri := "nostr+walletconnect://file";
               dataPath := "./data" |}
  ∧ configure (Some (Some config_of_file)) (λ _, Some config_without_data)
      values_with_config
    = Exit 1.
Proof.
  split; [reflexivity|].
  destruct (custom_config_replaces (λ _, Some config_without_data)
              values_with_config "my-config.json" eq_refl) as (_ & Hnone & Hsame);
    [done|].
  rewrite (Hsame config_of_file), Hnone. reflexivity.
Defined.
